(** * Servo controller for the PCA9685 (arduino_pca9685_controller.ino)

    A shallow embedding of the sketch: the byte-received handler
    [serialEvent], the polling [loop], the command processor
    [processCommand] and the dispatch [setServoAngle], with the global
    variables of the sketch gathered in one [state] record that every
    function threads explicitly.

    Target: the ATmega328 boards named in the sketch header, where [int] is
    16 bits, [long] and [unsigned long] are 32 bits and [unsigned int] is
    16 bits.  Integers are [Z] with the wrap-around of each conversion
    written out.

    The Arduino core ([String], [Print], [constrain], [map]) and avr-libc
    ([atol], [isspace]) are platform libraries the sketch calls; they are
    embedded in [Module WString] and [Module Core] after their reference
    behaviour.  A [String] is modelled by the sequence of its characters;
    heap exhaustion and the NUL terminator of its buffer are below this
    level of abstraction, and the properties that need a whole line to be
    read are stated for the lines that satisfy [fits]. *)

From Stdlib Require Import ZArith List Ascii String DecimalString Bool Lia.
Import ListNotations.
Open Scope Z_scope.

(** ** Machine integers *)

Definition wrap (bits z : Z) : Z :=
  (z + 2 ^ (bits - 1)) mod 2 ^ bits - 2 ^ (bits - 1).

Definition INT_MAX : Z := 32767.

(** Conversion to [int] (16 bits, signed). *)
Definition to_int (z : Z) : Z := wrap 16 z.
(** Conversion to [long] (32 bits, signed). *)
Definition to_long (z : Z) : Z := wrap 32 z.
(** Conversion to [unsigned int] (16 bits). *)
Definition to_unsigned (z : Z) : Z := z mod 2 ^ 16.

(** ** The Arduino [String] class *)

Module WString.

Definition t := list ascii.

(** A string literal of the sketch. *)
Definition lit (s : string) : t := list_ascii_of_string s.

Definition code (c : ascii) : Z := Z.of_N (N_of_ascii c).

(** [isspace] in the C locale: space, and the controls HT LF VT FF CR. *)
Definition isspace (c : ascii) : bool :=
  (code c =? 32) || ((9 <=? code c) && (code c <=? 13)).

Definition isdigit (c : ascii) : bool :=
  (48 <=? code c) && (code c <=? 57).

Definition len (s : t) : Z := Z.of_nat (List.length s).

(** The scan [while (isspace( *begin)) begin++]. *)
Fixpoint skip_space (s : t) : t :=
  match s with
  | [] => []
  | c :: r => if isspace c then skip_space r else s
  end.

(** [String::trim]: white space is removed at both ends. *)
Definition trim (s : t) : t := rev (skip_space (rev (skip_space s))).

Fixpoint starts_with (needle hay : t) : bool :=
  match needle, hay with
  | [], _ => true
  | _ :: _, [] => false
  | a :: n', b :: h' => Ascii.eqb a b && starts_with n' h'
  end.

(** [strstr]: offset of the first occurrence of [needle] in [hay]. *)
Fixpoint strstr (hay needle : t) : option nat :=
  if starts_with needle hay then Some O
  else match hay with
       | [] => None
       | _ :: r => option_map S (strstr r needle)
       end.

(** [strchr]: offset of the first occurrence of the character [ch]. *)
Fixpoint strchr (hay : t) (ch : ascii) : option nat :=
  match hay with
  | [] => None
  | c :: r => if Ascii.eqb c ch then Some O else option_map S (strchr r ch)
  end.

(** The pointer difference [found - buffer], returned as an [int]. *)
Definition found_index (fromIndex : Z) (r : option nat) : Z :=
  match r with
  | None => -1
  | Some k => to_int (fromIndex + Z.of_nat k)
  end.

(** [int String::indexOf(const String &s2, unsigned int fromIndex)]. *)
Definition indexOf_from (s2 : t) (s : t) (fromIndex : Z) : Z :=
  let fromIndex := to_unsigned fromIndex in
  if fromIndex >=? len s then -1
  else found_index fromIndex (strstr (skipn (Z.to_nat fromIndex) s) s2).

(** [int String::indexOf(const String &s2)], which searches from 0. *)
Definition indexOf (s2 : t) (s : t) : Z := indexOf_from s2 s 0.

(** [int String::indexOf(char ch, unsigned int fromIndex)]. *)
Definition indexOf_char (ch : ascii) (s : t) (fromIndex : Z) : Z :=
  let fromIndex := to_unsigned fromIndex in
  if fromIndex >=? len s then -1
  else found_index fromIndex (strchr (skipn (Z.to_nat fromIndex) s) ch).

(** [String String::substring(unsigned int left, unsigned int right)]:
    the bounds are swapped when out of order, an empty string is returned
    when the left one is past the end, and the right one is cut down to the
    length. *)
Definition substring (s : t) (left_ right_ : Z) : t :=
  let left_ := to_unsigned left_ in
  let right_ := to_unsigned right_ in
  let '(left_, right_) :=
    if left_ >? right_ then (right_, left_) else (left_, right_) in
  if left_ >=? len s then []
  else
    let right_ := if right_ >? len s then len s else right_ in
    firstn (Z.to_nat (right_ - left_)) (skipn (Z.to_nat left_) s).

(** [String String::substring(unsigned int beginIndex)], which is
    [substring(beginIndex, len)]. *)
Definition substring_from (s : t) (beginIndex : Z) : t :=
  substring s beginIndex (len s).

Definition digit_value (c : ascii) : Z := code c - 48.

(** The digit loop of [atol]: [val = val * 10 + digit] while digits last. *)
Fixpoint digits (s : t) (acc : Z) : Z :=
  match s with
  | [] => acc
  | c :: r => if isdigit c then digits r (acc * 10 + digit_value c) else acc
  end.

(** avr-libc [atol]: white space is skipped, one sign is read, then the
    digits; the accumulation is done in a [long]. *)
Definition atol (s : t) : Z :=
  match skip_space s with
  | c :: r =>
      if Ascii.eqb c "-" then to_long (- digits r 0)
      else if Ascii.eqb c "+" then to_long (digits r 0)
      else to_long (digits (c :: r) 0)
  | [] => 0
  end.

(** [long String::toInt()]. *)
Definition toInt (s : t) : Z := atol s.

End WString.

(** ** Arduino core: [constrain], [map] and [Print] *)

Module Core.

(** The macro [constrain(amt,low,high)]. *)
Definition constrain (amt low high : Z) : Z :=
  if amt <? low then low else if amt >? high then high else amt.

(** [long map(long x, long in_min, long in_max, long out_min, long out_max)]:
    [(x - in_min) * (out_max - out_min) / (in_max - in_min) + out_min],
    each operation in [long], the division truncating. *)
Definition map (x in_min in_max out_min out_max : Z) : Z :=
  to_long
    (to_long
       (Z.quot (to_long (to_long (x - in_min) * to_long (out_max - out_min)))
               (to_long (in_max - in_min)))
     + out_min).

Definition digit_char (d : Z) : ascii := ascii_of_N (Z.to_N (48 + d)).

(** The loop of [Print::printNumber] in base 10:
    [do { c = n % 10; n /= 10; *--str = c + '0'; } while (n);]
    The buffer of the source holds 32 characters, the fuel. *)
Fixpoint printNumber_loop (fuel : nat) (n : Z) (str : list ascii) : list ascii :=
  match fuel with
  | O => str
  | S fuel' =>
      let c := n mod 10 in
      let n := n / 10 in
      let str := digit_char c :: str in
      if n =? 0 then str else printNumber_loop fuel' n str
  end.

Definition printNumber (n : Z) : list ascii := printNumber_loop 32 n [].

(** [Print::print(long n, DEC)]: a minus sign, then the magnitude as an
    [unsigned long]. *)
Definition print_long (n : Z) : list ascii :=
  if n <? 0 then "-"%char :: printNumber ((- n) mod 2 ^ 32) else printNumber n.

Definition CR : ascii := "013"%char.
Definition LF : ascii := "010"%char.

(** [Print::println] ends the line with carriage return and line feed. *)
Definition CRLF : list ascii := [CR; LF].

End Core.

(** ** The sketch *)

Definition SERVO_X_CHANNEL : Z := 0.
Definition SERVO_Y_CHANNEL : Z := 1.
Definition USMIN : Z := 600.
Definition USMAX : Z := 2400.

(** The globals of the sketch, and the two sinks it writes to: the
    characters sent on the serial port and the calls
    [pwm.writeMicroseconds(channel, microseconds)], both in order. *)
Record state := mkState {
  posX : Z;
  posY : Z;
  inputString : WString.t;
  stringComplete : bool;
  serial_out : list ascii;
  pwm_writes : list (Z * Z)
}.

(** The state the initialisers of the globals give, before [setup]. *)
Definition power_on : state :=
  {| posX := 90; posY := 90; inputString := []; stringComplete := false;
     serial_out := []; pwm_writes := [] |}.

Definition set_posX (v : Z) (st : state) : state :=
  mkState v (posY st) (inputString st) (stringComplete st)
          (serial_out st) (pwm_writes st).

Definition set_posY (v : Z) (st : state) : state :=
  mkState (posX st) v (inputString st) (stringComplete st)
          (serial_out st) (pwm_writes st).

Definition set_inputString (s : WString.t) (st : state) : state :=
  mkState (posX st) (posY st) s (stringComplete st)
          (serial_out st) (pwm_writes st).

Definition set_stringComplete (b : bool) (st : state) : state :=
  mkState (posX st) (posY st) (inputString st) b
          (serial_out st) (pwm_writes st).

(** [Serial.print(const char * )]. *)
Definition Serial_print (s : WString.t) (st : state) : state :=
  mkState (posX st) (posY st) (inputString st) (stringComplete st)
          (serial_out st ++ s) (pwm_writes st).

(** [Serial.println(const char * )]. *)
Definition Serial_println (s : WString.t) (st : state) : state :=
  Serial_print Core.CRLF (Serial_print s st).

(** [Serial.print(int)], which prints [(long) n] in base 10. *)
Definition Serial_print_int (n : Z) (st : state) : state :=
  Serial_print (Core.print_long n) st.

(** [Serial.println(int)]. *)
Definition Serial_println_int (n : Z) (st : state) : state :=
  Serial_print Core.CRLF (Serial_print_int n st).

(** [pwm.writeMicroseconds(channel, microseconds)], the output driver. *)
Definition pwm_writeMicroseconds (channel microseconds : Z) (st : state) : state :=
  mkState (posX st) (posY st) (inputString st) (stringComplete st)
          (serial_out st) (pwm_writes st ++ [(channel, microseconds)]).

(** The local [microseconds] of [setServoAngle]: the angle is constrained
    to 0..180, mapped to USMIN..USMAX and stored in an [int]. *)
Definition microseconds_of (angle : Z) : Z :=
  let angle := Core.constrain angle 0 180 in
  to_int (Core.map angle 0 180 USMIN USMAX).

Definition setServoAngle (channel angle : Z) (st : state) : state :=
  let angle := Core.constrain angle 0 180 in
  let microseconds := to_int (Core.map angle 0 180 USMIN USMAX) in
  pwm_writeMicroseconds channel microseconds st.

(** One turn of the [while (Serial.available())] loop of [serialEvent],
    for the byte [inChar] just read. *)
Definition serialEvent_byte (inChar : ascii) (st : state) : state :=
  let st := set_inputString (inputString st ++ [inChar]) st in
  if Ascii.eqb inChar Core.LF then set_stringComplete true st else st.

(** [serialEvent], run with the bytes [avail] waiting in the receiver. *)
Definition serialEvent (avail : list ascii) (st : state) : state :=
  fold_left (fun s c => serialEvent_byte c s) avail st.

Import WString.

(** The pieces of [processCommand] that depend on the command alone, named
    after its locals. *)
Definition xIndex_of (command : WString.t) : Z := indexOf (lit "X:") command.
Definition yIndex_of (command : WString.t) : Z := indexOf (lit "Y:") command.

Definition xStr_of (command : WString.t) : WString.t :=
  let xStart := to_int (xIndex_of command + 2) in
  let xEnd := indexOf_char " " command xStart in
  substring command xStart xEnd.

Definition yStr_of (command : WString.t) : WString.t :=
  let yStart := to_int (yIndex_of command + 2) in
  substring_from command yStart.

(** [int newX = xStr.toInt();] and [int newY = yStr.toInt();], before
    they are constrained. *)
Definition newX_of (command : WString.t) : Z := to_int (toInt (xStr_of command)).
Definition newY_of (command : WString.t) : Z := to_int (toInt (yStr_of command)).

Definition processCommand (command : WString.t) (st : state) : state :=
  let command := trim command in
  let xIndex := indexOf (lit "X:") command in
  let yIndex := indexOf (lit "Y:") command in
  if (xIndex >=? 0) && (yIndex >=? 0) then
    let xStart := to_int (xIndex + 2) in
    let xEnd := indexOf_char " " command xStart in
    let xStr := substring command xStart xEnd in
    let newX := to_int (toInt xStr) in
    let yStart := to_int (yIndex + 2) in
    let yStr := substring_from command yStart in
    let newY := to_int (toInt yStr) in
    let newX := Core.constrain newX 0 180 in
    let newY := Core.constrain newY 0 180 in
    let st := set_posX newX st in
    let st := set_posY newY st in
    let st := setServoAngle SERVO_X_CHANNEL (posX st) st in
    let st := setServoAngle SERVO_Y_CHANNEL (posY st) st in
    let st := Serial_print (lit "OK X:") st in
    let st := Serial_print_int (posX st) st in
    let st := Serial_print (lit " Y:") st in
    Serial_println_int (posY st) st
  else
    Serial_println (lit "ERROR: Invalid command format") st.

(** [setup]: the servos are centred and the banner is printed.  The
    configuration calls of the driver, the delay and [reserve] have no
    effect on the state modelled here. *)
Definition setup (st : state) : state :=
  let st := setServoAngle SERVO_X_CHANNEL (posX st) st in
  let st := setServoAngle SERVO_Y_CHANNEL (posY st) st in
  let st := Serial_println (lit "PCA9685 Servo Controller Ready") st in
  Serial_println (lit "Send commands as: X:<angle> Y:<angle>") st.

Definition loop (st : state) : state :=
  if stringComplete st then
    let st := processCommand (inputString st) st in
    let st := set_inputString [] st in
    set_stringComplete false st
  else st.


(** ** Vocabulary of the properties *)

(** The test [xIndex >= 0 && yIndex >= 0] of [processCommand], on the
    trimmed command. *)
Definition accepted (command : WString.t) : bool :=
  (xIndex_of command >=? 0) && (yIndex_of command >=? 0).

(** [pat] occurs in [s]. *)
Definition occurs (pat s : WString.t) : Prop :=
  exists pre post, s = pre ++ pat ++ post.

(** A line the routines of the class read in full: its length is one an
    [int] can hold (the 2 KB of RAM of the board keep every [String] far
    below this), and it holds no NUL, at which the C string routines
    behind [indexOf] and [toInt] would stop. *)
Definition fits (s : WString.t) : Prop :=
  len s <= INT_MAX /\ ~ In "000"%char s.

(** The line a command ends with once [serialEvent] has stored it. *)
Definition terminated (s : WString.t) : WString.t := s ++ [Core.LF].

(** The decimal numeral of an integer, as the sender writes it. *)
Definition decimal (n : Z) : WString.t :=
  list_ascii_of_string (NilZero.string_of_int (Z.to_int n)).

(** The text of a response line as it leaves the serial port. *)
Definition line (s : WString.t) : list ascii := s ++ Core.CRLF.

Definition ok_line (x y : Z) : WString.t :=
  lit "OK X:" ++ decimal x ++ lit " Y:" ++ decimal y.

Definition error_line : WString.t := lit "ERROR: Invalid command format".

(** A field in which integer parsing finds a number: after optional white
    space and one optional sign, a decimal digit. *)
Definition begins_with_number (s : WString.t) : bool :=
  match skip_space s with
  | [] => false
  | c :: r =>
      if Ascii.eqb c "-" || Ascii.eqb c "+"
      then match r with d :: _ => isdigit d | [] => false end
      else isdigit c
  end.



(** What happens to the running sketch: bytes arrive and [serialEvent]
    runs, or [loop] runs once. *)
Inductive event :=
| Received (avail : list ascii)
| Polled.

Definition step (st : state) (e : event) : state :=
  match e with
  | Received avail => serialEvent avail st
  | Polled => loop st
  end.

Definition execute (events : list event) (st : state) : state :=
  fold_left step events st.




(** The angles of the servo range, listed. *)
Definition servo_angles : list Z := List.map Z.of_nat (seq 0 181).

Definition same_text (u v : list ascii) : bool :=
  if list_eq_dec ascii_dec u v then true else false.

(** What [processCommand] computes from the line [received] when the
    command [X:<a> Y:<b>] is meant: the line is accepted and the
    constrained values are [a] and [b]. *)
Definition reads_as (received : WString.t) (a b : Z) : bool :=
  accepted (trim received)
  && (Core.constrain (newX_of (trim received)) 0 180 =? a)
  && (Core.constrain (newY_of (trim received)) 0 180 =? b).

Definition command_text (a b : Z) : WString.t :=
  lit "X:" ++ decimal a ++ lit " Y:" ++ decimal b.

Definition valid_command_check (a b : Z) : bool :=
  reads_as (command_text a b) a b
  && reads_as (terminated (command_text a b)) a b.

(** ** Vocabulary of the system properties *)

(** What [loop] does to the receiver once a command is processed. *)
Definition reset (st : state) : state :=
  set_stringComplete false (set_inputString [] st).

(** The line terminator is among the bytes. *)
Definition has_terminator (avail : list ascii) : bool :=
  existsb (fun c => Ascii.eqb c Core.LF) avail.

(** The last two pulses written are those of the two positions held. *)
Definition synced (st : state) : Prop :=
  exists earlier,
    pwm_writes st
    = earlier ++ [(SERVO_X_CHANNEL, microseconds_of (posX st));
                  (SERVO_Y_CHANNEL, microseconds_of (posY st))].

(** A call of the output driver on one of the two servo channels, with a
    pulse inside the calibration range. *)
Definition servo_write (w : Z * Z) : Prop :=
  (fst w = SERVO_X_CHANNEL \/ fst w = SERVO_Y_CHANNEL)
  /\ USMIN <= snd w <= USMAX.

(** The characters before the first space, all of them when there is none. *)
Fixpoint until_space (s : WString.t) : WString.t :=
  match s with
  | [] => []
  | c :: r => if Ascii.eqb c " " then [] else c :: until_space r
  end.

(** A command written with the numerals [Serial.print] produces. *)
Definition printed_command (a b : Z) : WString.t :=
  lit "X:" ++ Core.print_long a ++ lit " Y:" ++ Core.print_long b.

(** The same command with the Y field first. *)
Definition swapped_command (a b : Z) : WString.t :=
  lit "Y:" ++ Core.print_long b ++ lit " X:" ++ Core.print_long a.

(** The state an accepted command with constrained values [x] and [y]
    leaves behind. *)
Definition dispatched (x y : Z) (st : state) : state :=
  mkState x y (inputString st) (stringComplete st)
    (serial_out st ++ line (ok_line x y))
    (pwm_writes st ++ [(SERVO_X_CHANNEL, microseconds_of x);
                       (SERVO_Y_CHANNEL, microseconds_of y)]).

(** The characters of a printed number: the digits and the minus sign. *)
Definition numeral_char (c : ascii) : bool :=
  isdigit c || Ascii.eqb c "-".

(** The text does not go on with a digit. *)
Definition no_digit_ahead (s : WString.t) : bool :=
  match s with
  | [] => true
  | c :: _ => negb (isdigit c)
  end.

(** The two lines [setup] sends. *)
Definition banner : list ascii :=
  line (lit "PCA9685 Servo Controller Ready")
  ++ line (lit "Send commands as: X:<angle> Y:<angle>").

(** The lines [processCommand] answers with. *)
Definition response (l : WString.t) : Prop :=
  l = error_line
  \/ exists x y, 0 <= x <= 180 /\ 0 <= y <= 180 /\ l = ok_line x y.

(** All that was sent is the banner followed by response lines. *)
Definition protocol_output (out : list ascii) : Prop :=
  exists answers,
    Forall response answers /\ out = banner ++ List.concat (List.map line answers).

(** The state a rejected command leaves behind. *)
Definition rejected (st : state) : state :=
  mkState (posX st) (posY st) (inputString st) (stringComplete st)
    (serial_out st ++ line error_line) (pwm_writes st).

(** ** Machine integers: conversions that change nothing *)

Lemma to_int_small (z : Z) : -32768 <= z <= INT_MAX -> to_int z = z.
Proof.
  unfold to_int, wrap, INT_MAX. intros H.
  change (2 ^ (16 - 1)) with 32768. change (2 ^ 16) with 65536.
  rewrite Z.mod_small; lia.
Qed.

Lemma to_long_small (z : Z) : -2147483648 <= z < 2147483648 -> to_long z = z.
Proof.
  unfold to_long, wrap. intros H.
  change (2 ^ (32 - 1)) with 2147483648. change (2 ^ 32) with 4294967296.
  rewrite Z.mod_small; lia.
Qed.

Lemma to_unsigned_small (z : Z) : 0 <= z < 65536 -> to_unsigned z = z.
Proof.
  unfold to_unsigned. change (2 ^ 16) with 65536. intros H.
  apply Z.mod_small; lia.
Qed.

Lemma to_unsigned_minus_one : to_unsigned (-1) = 65535.
Proof. reflexivity. Qed.

(** ** [constrain] and [map] *)

Lemma constrain_range (amt : Z) : 0 <= Core.constrain amt 0 180 <= 180.
Proof.
  unfold Core.constrain.
  destruct (amt <? 0) eqn:Hlo; [lia|].
  destruct (amt >? 180) eqn:Hhi; lia.
Qed.

Lemma constrain_inside (amt : Z) :
  0 <= amt <= 180 -> Core.constrain amt 0 180 = amt.
Proof.
  unfold Core.constrain. intros H.
  destruct (amt <? 0) eqn:Hlo; [lia|].
  destruct (amt >? 180) eqn:Hhi; lia.
Qed.



(** On the angles of the servo range the mapping is [600 + 10 * angle]:
    no intermediate result leaves the range of a [long]. *)
Lemma map_angle (angle : Z) :
  0 <= angle <= 180 -> Core.map angle 0 180 USMIN USMAX = 600 + 10 * angle.
Proof.
  intros H. unfold Core.map, USMIN, USMAX.
  change (2400 - 600) with 1800. change (180 - 0) with 180.
  rewrite Z.sub_0_r.
  rewrite (to_long_small angle) by lia.
  rewrite (to_long_small 1800) by lia.
  rewrite (to_long_small 180) by lia.
  rewrite (to_long_small (angle * 1800)) by lia.
  replace (angle * 1800) with (angle * 10 * 180) by lia.
  rewrite Z.quot_mul by lia.
  rewrite (to_long_small (angle * 10)) by lia.
  rewrite to_long_small by lia.
  lia.
Qed.

Lemma microseconds_of_linear (angle : Z) :
  microseconds_of angle = 600 + 10 * Core.constrain angle 0 180.
Proof.
  unfold microseconds_of.
  pose proof (constrain_range angle) as H.
  rewrite map_angle by exact H.
  apply to_int_small. unfold INT_MAX. lia.
Qed.

Lemma setServoAngle_writes (channel angle : Z) (st : state) :
  setServoAngle channel angle st
  = pwm_writeMicroseconds channel (microseconds_of angle) st.
Proof. unfold setServoAngle, microseconds_of. reflexivity. Qed.

(** ** The two branches of [processCommand] *)

Lemma processCommand_accept (command : WString.t) (st : state) :
  accepted (trim command) = true ->
  let x := Core.constrain (newX_of (trim command)) 0 180 in
  let y := Core.constrain (newY_of (trim command)) 0 180 in
  processCommand command st
  = mkState x y (inputString st) (stringComplete st)
      (serial_out st ++ lit "OK X:" ++ Core.print_long x
                     ++ lit " Y:" ++ Core.print_long y ++ Core.CRLF)
      (pwm_writes st ++ [(SERVO_X_CHANNEL, microseconds_of x);
                         (SERVO_Y_CHANNEL, microseconds_of y)]).
Proof.
  intros Hacc x y. unfold processCommand.
  unfold accepted, xIndex_of, yIndex_of in Hacc. rewrite Hacc.
  unfold newX_of, newY_of, xStr_of, yStr_of, xIndex_of, yIndex_of in x, y.
  cbv zeta in x, y.
  destruct st as [px py buf flag out writes].
  cbv beta iota zeta delta
    [Serial_println_int Serial_print_int Serial_print setServoAngle
     microseconds_of pwm_writeMicroseconds set_posX set_posY posX posY
     inputString stringComplete serial_out pwm_writes].
  fold x y. clearbody x y.
  rewrite <- !app_assoc. reflexivity.
Qed.

Lemma processCommand_reject (command : WString.t) (st : state) :
  accepted (trim command) = false ->
  processCommand command st
  = mkState (posX st) (posY st) (inputString st) (stringComplete st)
      (serial_out st ++ line error_line) (pwm_writes st).
Proof.
  intros Hacc. unfold processCommand.
  unfold accepted, xIndex_of, yIndex_of in Hacc. rewrite Hacc.
  destruct st as [px py buf flag out writes].
  cbv beta iota zeta delta
    [Serial_println Serial_print line error_line posX posY inputString
     stringComplete serial_out pwm_writes].
  now rewrite <- app_assoc.
Qed.

(** ** Searching a [String] *)

Lemma starts_with_app (needle hay : WString.t) :
  starts_with needle hay = true <-> exists post, hay = needle ++ post.
Proof.
  revert hay. induction needle as [|a needle IH]; intros hay; simpl.
  - split; [intros _; now exists hay | reflexivity].
  - destruct hay as [|b hay].
    + split; [discriminate | intros [post H]; discriminate].
    + rewrite andb_true_iff, Ascii.eqb_eq, IH. split.
      * intros [-> [post ->]]. now exists post.
      * intros [post H]. injection H as -> ->. split; [reflexivity | now exists post].
Qed.

Lemma strstr_unfold (hay needle : WString.t) :
  strstr hay needle =
  if starts_with needle hay then Some O
  else match hay with
       | [] => None
       | _ :: r => option_map S (strstr r needle)
       end.
Proof. destruct hay; reflexivity. Qed.

(** A match of [strstr] is an occurrence, at the offset returned. *)
Lemma strstr_found (hay needle : WString.t) (k : nat) :
  strstr hay needle = Some k ->
  exists post, skipn k hay = needle ++ post /\ (k <= List.length hay)%nat.
Proof.
  revert k. induction hay as [|c hay IH]; intros k; rewrite strstr_unfold.
  - destruct (starts_with needle []) eqn:Hs; [|discriminate].
    intros [= <-]. apply starts_with_app in Hs. destruct Hs as [post Hp].
    exists post. split; [exact Hp | simpl; lia].
  - destruct (starts_with needle (c :: hay)) eqn:Hs.
    + intros [= <-]. apply starts_with_app in Hs. destruct Hs as [post Hp].
      exists post. split; [exact Hp | simpl; lia].
    + destruct (strstr hay needle) as [j|] eqn:Hj; [|discriminate].
      simpl. intros [= <-]. destruct (IH j eq_refl) as [post [Hp Hl]].
      exists post. split; [exact Hp | simpl; lia].
Qed.

(** [strstr] misses no occurrence. *)
Lemma strstr_complete (pre needle post : WString.t) :
  exists k, strstr (pre ++ needle ++ post) needle = Some k
            /\ (k <= List.length pre)%nat.
Proof.
  induction pre as [|c pre IH]; rewrite strstr_unfold.
  - assert (Hs : starts_with needle ([] ++ needle ++ post) = true)
      by (apply starts_with_app; now exists post).
    rewrite Hs. exists O. split; [reflexivity | simpl; lia].
  - destruct (starts_with needle ((c :: pre) ++ needle ++ post)).
    + exists O. split; [reflexivity | simpl; lia].
    + simpl. destruct IH as [k [-> Hk]]. exists (S k).
      split; [reflexivity | simpl; lia].
Qed.

Lemma strstr_absent (hay needle : WString.t) :
  strstr hay needle = None -> ~ occurs needle hay.
Proof.
  intros Hnone [pre [post ->]].
  destruct (strstr_complete pre needle post) as [k [Hk _]]. congruence.
Qed.

Lemma strstr_occurs (hay needle : WString.t) (k : nat) :
  strstr hay needle = Some k -> occurs needle hay.
Proof.
  intros H. destruct (strstr_found _ _ _ H) as [post [Hp _]].
  exists (firstn k hay), post. rewrite <- Hp. symmetry. apply firstn_skipn.
Qed.

Lemma strchr_found (hay : WString.t) (ch : ascii) (k : nat) :
  strchr hay ch = Some k -> (k < List.length hay)%nat.
Proof.
  revert k. induction hay as [|c hay IH]; intros k; simpl; [discriminate|].
  destruct (Ascii.eqb c ch).
  - intros [= <-]. lia.
  - destruct (strchr hay ch) as [j|]; [|discriminate].
    simpl. intros [= <-]. specialize (IH j eq_refl). lia.
Qed.

Lemma strchr_absent (hay : WString.t) (ch : ascii) :
  ~ In ch hay -> strchr hay ch = None.
Proof.
  induction hay as [|c hay IH]; simpl; [reflexivity|]. intros H.
  destruct (Ascii.eqb c ch) eqn:E.
  - apply Ascii.eqb_eq in E. tauto.
  - rewrite IH; [reflexivity | tauto].
Qed.

(** ** [trim] *)

Lemma skip_space_split (s : WString.t) :
  exists ws, s = ws ++ skip_space s /\ forallb isspace ws = true.
Proof.
  induction s as [|c s [ws [Hs Hw]]]; simpl.
  - now exists [].
  - destruct (isspace c) eqn:Hc.
    + exists (c :: ws). simpl. rewrite Hc, Hw, <- Hs. now split.
    + now exists [].
Qed.

Lemma trim_split (s : WString.t) :
  exists pre post, s = pre ++ trim s ++ post.
Proof.
  destruct (skip_space_split s) as [pre [Hpre _]].
  destruct (skip_space_split (rev (skip_space s))) as [ws [Hws _]].
  exists pre, (rev ws). unfold trim.
  rewrite <- rev_app_distr, <- Hws, rev_involutive. exact Hpre.
Qed.

Lemma occurs_trim_inv (pat s : WString.t) : occurs pat (trim s) -> occurs pat s.
Proof.
  intros [a [b H]]. destruct (trim_split s) as [pre [post Hs]].
  exists (pre ++ a), (b ++ post). rewrite Hs at 1. rewrite H.
  now rewrite <- !app_assoc.
Qed.

Lemma len_trim (s : WString.t) : len (trim s) <= len s.
Proof.
  destruct (trim_split s) as [pre [post Hs]]. unfold len.
  rewrite Hs at 2. rewrite !length_app. lia.
Qed.

Lemma occurs_skip_space (p : ascii) (pat s : WString.t) :
  isspace p = false -> occurs (p :: pat) s -> occurs (p :: pat) (skip_space s).
Proof.
  intros Hp. induction s as [|c s IH]; intros Hocc; simpl; [exact Hocc|].
  destruct (isspace c) eqn:Hc; [|exact Hocc].
  apply IH. destruct Hocc as [[|a pre] [post H]]; simpl in H.
  - injection H as -> _. congruence.
  - injection H as _ ->. now exists pre, post.
Qed.

Lemma occurs_rev (pat s : WString.t) : occurs pat s -> occurs (rev pat) (rev s).
Proof.
  intros [pre [post ->]]. exists (rev post), (rev pre).
  now rewrite !rev_app_distr, <- app_assoc.
Qed.

(** [trim] keeps every occurrence of a two-character marker that holds no
    white space. *)
Lemma occurs_trim (p q : ascii) (s : WString.t) :
  isspace p = false -> isspace q = false ->
  occurs [p; q] s -> occurs [p; q] (trim s).
Proof.
  intros Hp Hq H. unfold trim.
  apply (occurs_skip_space p [q] s Hp) in H.
  apply occurs_rev in H. simpl in H.
  apply (occurs_skip_space q [p] _ Hq) in H.
  apply occurs_rev in H. exact H.
Qed.

(** ** [indexOf] against occurrences *)

Lemma indexOf_occurs (pat s : WString.t) :
  (indexOf pat s >=? 0) = true -> occurs pat s.
Proof.
  unfold indexOf, indexOf_from. rewrite to_unsigned_small by lia.
  destruct (0 >=? len s); [discriminate|]. simpl skipn.
  destruct (strstr s pat) as [k|] eqn:Hk; [|discriminate].
  intros _. exact (strstr_occurs _ _ _ Hk).
Qed.

(** On a [String] that fits, [indexOf] finds a marker that occurs, and the
    marker stands at the index returned. *)
Lemma indexOf_complete (pat s : WString.t) :
  fits s -> pat <> [] -> occurs pat s ->
  exists post,
    0 <= indexOf pat s /\ indexOf pat s + len pat <= len s
    /\ skipn (Z.to_nat (indexOf pat s)) s = pat ++ post.
Proof.
  unfold fits, len. intros [Hfit _] Hpat [pre [post Hs]].
  assert (Hlen : (0 < List.length pat)%nat)
    by (destruct pat; [congruence | simpl; lia]).
  assert (Hls : List.length s = (List.length pre + List.length pat + List.length post)%nat)
    by (rewrite Hs, !length_app; lia).
  unfold indexOf, indexOf_from. rewrite to_unsigned_small by lia.
  destruct (0 >=? len s) eqn:Hz; [unfold len in Hz; lia|]. simpl skipn.
  destruct (strstr_complete pre pat post) as [k [Hk Hle]].
  rewrite <- Hs in Hk. rewrite Hk. unfold found_index.
  rewrite to_int_small by (unfold INT_MAX in *; lia).
  destruct (strstr_found _ _ _ Hk) as [post' [Hp Hkl]].
  exists post'. rewrite Z.add_0_l, Nat2Z.id. split; [lia|]. split; [|exact Hp].
  assert (Hsk : List.length (skipn k s) = (List.length pat + List.length post')%nat)
    by (rewrite Hp, length_app; reflexivity).
  rewrite length_skipn in Hsk. lia.
Qed.

Lemma fits_trim (s : WString.t) : fits s -> fits (trim s).
Proof.
  unfold fits. intros [Hlen Hnul]. split; [pose proof (len_trim s); lia|].
  intros Hin. apply Hnul.
  destruct (trim_split s) as [pre [post Hs]]. rewrite Hs.
  apply in_or_app. right. apply in_or_app. now left.
Qed.

Lemma not_space_X : isspace "X" = false. Proof. reflexivity. Qed.
Lemma not_space_Y : isspace "Y" = false. Proof. reflexivity. Qed.
Lemma not_space_colon : isspace ":" = false. Proof. reflexivity. Qed.

(** The acceptance test is the presence of both markers. *)
Lemma accepted_occurs (s : WString.t) :
  accepted (trim s) = true -> occurs (lit "X:") s /\ occurs (lit "Y:") s.
Proof.
  unfold accepted, xIndex_of, yIndex_of. rewrite andb_true_iff.
  intros [Hx Hy]. split; apply occurs_trim_inv, indexOf_occurs; assumption.
Qed.

Lemma occurs_accepted (s : WString.t) :
  fits s -> occurs (lit "X:") s -> occurs (lit "Y:") s ->
  accepted (trim s) = true.
Proof.
  intros Hfit Hx Hy. unfold accepted, xIndex_of, yIndex_of.
  apply (occurs_trim "X" ":" s not_space_X not_space_colon) in Hx.
  apply (occurs_trim "Y" ":" s not_space_Y not_space_colon) in Hy.
  apply fits_trim in Hfit.
  destruct (indexOf_complete (lit "X:") (trim s) Hfit) as [_ [H1 _]];
    [discriminate | exact Hx |].
  destruct (indexOf_complete (lit "Y:") (trim s) Hfit) as [_ [H2 _]];
    [discriminate | exact Hy |].
  apply andb_true_iff. split; apply Z.geb_le; lia.
Qed.

(** ** Well-formed commands *)

Lemma servo_angles_complete (a : Z) : 0 <= a <= 180 -> In a servo_angles.
Proof.
  intros H. unfold servo_angles. rewrite <- (Z2Nat.id a) by lia.
  apply in_map, in_seq. lia.
Qed.

Lemma not_in_text (c : ascii) (s : list ascii) :
  forallb (fun d => negb (Ascii.eqb d c)) s = true -> ~ In c s.
Proof.
  rewrite forallb_forall. intros H Hin. specialize (H c Hin).
  now rewrite Ascii.eqb_refl in H.
Qed.

Lemma same_text_eq (u v : list ascii) : same_text u v = true -> u = v.
Proof. unfold same_text. destruct (list_eq_dec ascii_dec u v); congruence. Qed.

(** Every command of the servo range, with or without its terminator, is
    read back as the two angles it was written from. *)
Lemma valid_commands_checked :
  forallb (fun a => forallb (valid_command_check a) servo_angles) servo_angles
  = true.
Proof. vm_cast_no_check (eq_refl true). Qed.

(** [Serial.print] writes an angle of the servo range as its numeral. *)
Lemma print_long_decimal (n : Z) :
  0 <= n <= 180 -> Core.print_long n = decimal n.
Proof.
  intros H. apply same_text_eq.
  assert (Hall : forallb (fun a => same_text (Core.print_long a) (decimal a))
                         servo_angles = true)
    by (vm_compute; reflexivity).
  rewrite forallb_forall in Hall. apply Hall, servo_angles_complete, H.
Qed.

(** The state an accepted command leaves, with the response as text. *)
Lemma processCommand_dispatch (received : WString.t) (st : state) :
  accepted (trim received) = true ->
  let x := Core.constrain (newX_of (trim received)) 0 180 in
  let y := Core.constrain (newY_of (trim received)) 0 180 in
  processCommand received st
  = mkState x y (inputString st) (stringComplete st)
      (serial_out st ++ line (ok_line x y))
      (pwm_writes st ++ [(SERVO_X_CHANNEL, microseconds_of x);
                         (SERVO_Y_CHANNEL, microseconds_of y)]).
Proof.
  intros Hacc x y.
  rewrite (processCommand_accept received st Hacc). cbv zeta. fold x y.
  rewrite (print_long_decimal x) by apply constrain_range.
  rewrite (print_long_decimal y) by apply constrain_range.
  unfold line, ok_line. now rewrite <- !app_assoc.
Qed.

Lemma reads_as_processed (received : WString.t) (a b : Z) (st : state) :
  reads_as received a b = true ->
  processCommand received st
  = mkState a b (inputString st) (stringComplete st)
      (serial_out st ++ line (ok_line a b))
      (pwm_writes st ++ [(SERVO_X_CHANNEL, microseconds_of a);
                         (SERVO_Y_CHANNEL, microseconds_of b)]).
Proof.
  unfold reads_as. rewrite !andb_true_iff.
  intros [[Hacc Hx] Hy]. apply Z.eqb_eq in Hx, Hy.
  rewrite (processCommand_dispatch received st Hacc). cbv zeta.
  now rewrite Hx, Hy.
Qed.

(** C1: for all a and b in 0..180, the command line [X:<a> Y:<b>], as it is
    or followed by the line terminator the receiver stores with it, makes
    [processCommand] send exactly the line [OK X:<a> Y:<b>] and leaves the
    X position equal to a and the Y position equal to b. *)
Theorem valid_command_acknowledged (a b : Z) (received : WString.t) (st : state) :
  0 <= a <= 180 -> 0 <= b <= 180 ->
  received = command_text a b \/ received = terminated (command_text a b) ->
  serial_out (processCommand received st) = serial_out st ++ line (ok_line a b)
  /\ posX (processCommand received st) = a
  /\ posY (processCommand received st) = b.
Proof.
  intros Ha Hb Hrec.
  pose proof valid_commands_checked as Hall.
  rewrite forallb_forall in Hall.
  specialize (Hall a (servo_angles_complete a Ha)).
  rewrite forallb_forall in Hall.
  specialize (Hall b (servo_angles_complete b Hb)).
  unfold valid_command_check in Hall. apply andb_true_iff in Hall.
  destruct Hall as [Hplain Hterm].
  assert (Hread : reads_as received a b = true)
    by (destruct Hrec as [-> | ->]; assumption).
  rewrite (reads_as_processed received a b st Hread). cbn. auto.
Qed.

Lemma valid_command_acknowledged_witness :
  serial_out (processCommand (terminated (command_text 90 45)) power_on)
  = serial_out power_on ++ line (ok_line 90 45)
  /\ posX (processCommand (terminated (command_text 90 45)) power_on) = 90
  /\ posY (processCommand (terminated (command_text 90 45)) power_on) = 45.
Proof.
  apply (valid_command_acknowledged 90 45); [lia | lia | right; reflexivity].
Defined.

(** ** Malformed commands *)

(** C2: a line in which the marker [X:] or the marker [Y:] does not occur
    leaves both positions as they were, writes to no output channel, and
    sends exactly the line [ERROR: Invalid command format]. *)
Theorem missing_marker_rejected (received : WString.t) (st : state) :
  ~ occurs (lit "X:") received \/ ~ occurs (lit "Y:") received ->
  posX (processCommand received st) = posX st
  /\ posY (processCommand received st) = posY st
  /\ pwm_writes (processCommand received st) = pwm_writes st
  /\ serial_out (processCommand received st) = serial_out st ++ line error_line.
Proof.
  intros Hmiss.
  assert (Hacc : accepted (trim received) = false).
  { destruct (accepted (trim received)) eqn:E; [|reflexivity].
    apply accepted_occurs in E. tauto. }
  rewrite (processCommand_reject received st Hacc). cbn. auto.
Qed.

Lemma missing_marker_rejected_witness :
  posX (processCommand (terminated (lit "garbage")) power_on) = 90
  /\ posY (processCommand (terminated (lit "garbage")) power_on) = 90
  /\ pwm_writes (processCommand (terminated (lit "garbage")) power_on) = []
  /\ serial_out (processCommand (terminated (lit "garbage")) power_on)
     = line error_line.
Proof.
  apply (missing_marker_rejected (terminated (lit "garbage")) power_on).
  left. apply strstr_absent. reflexivity.
Defined.

(** ** The mapping from angles to pulse widths *)

Lemma microseconds_of_monotone (a b : Z) :
  a <= b -> microseconds_of a <= microseconds_of b.
Proof.
  intros H. rewrite !microseconds_of_linear. unfold Core.constrain.
  destruct (a <? 0) eqn:Ha0; destruct (b <? 0) eqn:Hb0;
    destruct (a >? 180) eqn:Ha1; destruct (b >? 180) eqn:Hb1; lia.
Qed.

(** C6: [setServoAngle] writes the pulse width [microseconds_of angle];
    this mapping sends angle 0 to 600 microseconds and angle 180 to 2400
    microseconds, and for all angles a <= b in 0..180 the pulse width of a
    is at most the pulse width of b. *)
Theorem mapping_endpoints_monotone :
  (forall channel angle st,
      pwm_writes (setServoAngle channel angle st)
      = pwm_writes st ++ [(channel, microseconds_of angle)])
  /\ microseconds_of 0 = 600
  /\ microseconds_of 180 = 2400
  /\ (forall a b, 0 <= a -> a <= b -> b <= 180 ->
        microseconds_of a <= microseconds_of b).
Proof.
  split; [intros; now rewrite setServoAngle_writes|].
  split; [rewrite microseconds_of_linear; reflexivity|].
  split; [rewrite microseconds_of_linear; reflexivity|].
  intros a b _ Hab _. now apply microseconds_of_monotone.
Qed.

Lemma mapping_endpoints_monotone_witness :
  microseconds_of 45 <= microseconds_of 90.
Proof.
  destruct mapping_endpoints_monotone as [_ [_ [_ Hmono]]].
  apply (Hmono 45 90); lia.
Defined.

(** C9: whatever integer [setServoAngle] is given as its angle, inside
    0..180 or not, the one pulse width it hands to the output driver lies
    in 600..2400: it is the mapping of the angle constrained to 0..180 by
    [setServoAngle] itself. *)
Theorem dispatched_pulse_bounded (channel angle : Z) (st : state) :
  exists microseconds,
    pwm_writes (setServoAngle channel angle st)
    = pwm_writes st ++ [(channel, microseconds)]
    /\ microseconds = 600 + 10 * Core.constrain angle 0 180
    /\ 600 <= microseconds <= 2400.
Proof.
  exists (microseconds_of angle).
  split; [now rewrite setServoAngle_writes|].
  rewrite microseconds_of_linear. pose proof (constrain_range angle). lia.
Qed.

(** ** Scenarios *)

(** The claim C3 has the line [X:90 Y:45] write 1200 microseconds to
    channel 1; no such write is made. *)
Lemma scenario_45_is_not_1200 :
  ~ In (SERVO_Y_CHANNEL, 1200)
       (pwm_writes (processCommand (terminated (lit "X:90 Y:45")) power_on)).
Proof.
  rewrite (reads_as_processed _ 90 45 power_on) by reflexivity.
  rewrite !microseconds_of_linear. cbn.
  intros [H | [H | []]]; discriminate H.
Qed.

(** C3, amended: the input line [X:90 Y:45] with its terminator makes
    [processCommand] send the line [OK X:90 Y:45], write 1500 microseconds
    to channel 0 and write 1050 microseconds to channel 1. *)
Theorem scenario_90_45 (st : state) :
  let st' := processCommand (terminated (lit "X:90 Y:45")) st in
  serial_out st' = serial_out st ++ line (lit "OK X:90 Y:45")
  /\ pwm_writes st' = pwm_writes st ++ [(0, 1500); (1, 1050)].
Proof.
  cbv zeta. rewrite (reads_as_processed _ 90 45 st) by reflexivity.
  rewrite !microseconds_of_linear. split; reflexivity.
Qed.

(** ** Out-of-range and unparseable fields *)

(** The parsed integers are the [int] variables [newX] and [newY]: the
    [long] that [toInt] returns is cut to 16 bits when it is stored. *)
Example parsed_value_is_an_int :
  toInt (xStr_of (lit "X:65626 Y:0")) = 65626
  /\ newX_of (lit "X:65626 Y:0") = 90.
Proof. split; reflexivity. Qed.



Lemma digits_no_digit (s : WString.t) :
  match s with d :: _ => isdigit d | [] => false end = false ->
  digits s 0 = 0.
Proof. destruct s as [|d r]; simpl; [reflexivity | now intros ->]. Qed.

(** [atol] of a field that does not begin with a number is zero. *)
Lemma atol_no_number (s : WString.t) :
  begins_with_number s = false -> atol s = 0.
Proof.
  unfold begins_with_number, atol.
  destruct (skip_space s) as [|c r]; [reflexivity|].
  destruct (Ascii.eqb c "-") eqn:Em; simpl orb.
  - intros H. now rewrite (digits_no_digit r H).
  - destruct (Ascii.eqb c "+") eqn:Ep; simpl orb.
    + intros H. now rewrite (digits_no_digit r H).
    + intros H. now rewrite (digits_no_digit (c :: r) H).
Qed.

(** C5: in a command line that holds both markers, a value field that is
    not numeric (it does not begin, after optional white space and sign,
    with a digit) is parsed as zero, and the command is dispatched all the
    same: two pulses are written, the position of that axis becomes 0 and
    the confirmation line reports 0 for it. *)
Theorem non_numeric_field_is_zero (received : WString.t) (st : state) :
  fits received ->
  occurs (lit "X:") received -> occurs (lit "Y:") received ->
  let st' := processCommand received st in
  pwm_writes st'
  = pwm_writes st ++ [(SERVO_X_CHANNEL, microseconds_of (posX st'));
                      (SERVO_Y_CHANNEL, microseconds_of (posY st'))]
  /\ (begins_with_number (xStr_of (trim received)) = false ->
      toInt (xStr_of (trim received)) = 0
      /\ posX st' = 0
      /\ serial_out st' = serial_out st ++ line (ok_line 0 (posY st')))
  /\ (begins_with_number (yStr_of (trim received)) = false ->
      toInt (yStr_of (trim received)) = 0
      /\ posY st' = 0
      /\ serial_out st' = serial_out st ++ line (ok_line (posX st') 0)).
Proof.
  intros Hfit Hx Hy st'.
  pose proof (occurs_accepted received Hfit Hx Hy) as Hacc.
  subst st'. rewrite (processCommand_dispatch received st Hacc).
  cbv zeta. cbn [posX posY pwm_writes serial_out].
  split; [reflexivity|].
  split; intros Hnum; apply atol_no_number in Hnum.
  - unfold newX_of, toInt. rewrite Hnum. repeat split; reflexivity.
  - unfold newY_of, toInt. rewrite Hnum. repeat split; reflexivity.
Qed.

Lemma non_numeric_field_is_zero_witness :
  posX (processCommand (terminated (lit "X:abc Y:7")) power_on) = 0
  /\ serial_out (processCommand (terminated (lit "X:abc Y:7")) power_on)
     = line (lit "OK X:0 Y:7").
Proof.
  assert (Hfit : fits (terminated (lit "X:abc Y:7")))
    by (split; [discriminate | apply not_in_text; reflexivity]).
  assert (Hx : occurs (lit "X:") (terminated (lit "X:abc Y:7")))
    by (exists [], (terminated (lit "abc Y:7")); reflexivity).
  assert (Hy : occurs (lit "Y:") (terminated (lit "X:abc Y:7")))
    by (exists (lit "X:abc "), (terminated (lit "7")); reflexivity).
  destruct (non_numeric_field_is_zero _ power_on Hfit Hx Hy)
    as [_ [Hzero _]].
  destruct (Hzero eq_refl) as [_ [Hpos Hout]].
  split; [exact Hpos | rewrite Hout; reflexivity].
Defined.

(** ** The line receiver *)

Lemma serialEvent_byte_buffer (inChar : ascii) (st : state) :
  inputString (serialEvent_byte inChar st) = inputString st ++ [inChar].
Proof. unfold serialEvent_byte. destruct (Ascii.eqb inChar Core.LF); reflexivity. Qed.

Lemma serialEvent_byte_flag (inChar : ascii) (st : state) :
  stringComplete (serialEvent_byte inChar st)
  = if Ascii.eqb inChar Core.LF then true else stringComplete st.
Proof. unfold serialEvent_byte. destruct (Ascii.eqb inChar Core.LF); reflexivity. Qed.

Lemma serialEvent_byte_rest (inChar : ascii) (st : state) :
  posX (serialEvent_byte inChar st) = posX st
  /\ posY (serialEvent_byte inChar st) = posY st
  /\ serial_out (serialEvent_byte inChar st) = serial_out st
  /\ pwm_writes (serialEvent_byte inChar st) = pwm_writes st.
Proof.
  unfold serialEvent_byte. destruct (Ascii.eqb inChar Core.LF); cbn; auto.
Qed.

Lemma serialEvent_buffer (avail : list ascii) (st : state) :
  inputString (serialEvent avail st) = inputString st ++ avail.
Proof.
  unfold serialEvent. revert st.
  induction avail as [|c avail IH]; intros st; simpl.
  - now rewrite app_nil_r.
  - rewrite IH, serialEvent_byte_buffer, <- app_assoc. reflexivity.
Qed.

Lemma serialEvent_rest (avail : list ascii) (st : state) :
  posX (serialEvent avail st) = posX st
  /\ posY (serialEvent avail st) = posY st
  /\ serial_out (serialEvent avail st) = serial_out st
  /\ pwm_writes (serialEvent avail st) = pwm_writes st.
Proof.
  unfold serialEvent. revert st.
  induction avail as [|c avail IH]; intros st; simpl; [auto|].
  destruct (IH (serialEvent_byte c st)) as [-> [-> [-> ->]]].
  apply serialEvent_byte_rest.
Qed.

(** The claim C7 has the handler leave the line terminator out of the
    buffer; the handler stores it like any other byte. *)
Lemma terminator_is_stored :
  inputString (serialEvent_byte Core.LF power_on) <> inputString power_on.
Proof. cbn. discriminate. Qed.

(** C7, amended: the handler appends every received byte to the line
    buffer, the line terminator included, and when the byte is the
    terminator it also marks the buffer as a completed line; however many
    bytes it handles it never clears the buffer.  The buffer and the mark
    are cleared by [loop], once it has passed the completed line to
    [processCommand], and [loop] leaves them alone while no line is
    marked complete. *)
Theorem byte_received_is_stored :
  (forall (inChar : ascii) (st : state),
      inputString (serialEvent_byte inChar st) = inputString st ++ [inChar]
      /\ stringComplete (serialEvent_byte inChar st)
         = if Ascii.eqb inChar Core.LF then true else stringComplete st)
  /\ (forall (avail : list ascii) (st : state),
         inputString (serialEvent avail st) = inputString st ++ avail)
  /\ (forall st : state,
         stringComplete st = true ->
         loop st
         = set_stringComplete false
             (set_inputString [] (processCommand (inputString st) st))
         /\ inputString (loop st) = []
         /\ stringComplete (loop st) = false)
  /\ (forall st : state, stringComplete st = false -> loop st = st).
Proof.
  split; [intros; split;
          [apply serialEvent_byte_buffer | apply serialEvent_byte_flag]|].
  split; [apply serialEvent_buffer|].
  split; intros st H; unfold loop; rewrite H; [|reflexivity].
  repeat split; reflexivity.
Qed.

Lemma byte_received_is_stored_witness :
  inputString
    (loop (serialEvent (terminated (lit "X:1 Y:2")) power_on)) = []
  /\ posX (loop (serialEvent (terminated (lit "X:1 Y:2")) power_on)) = 1.
Proof.
  destruct byte_received_is_stored as [_ [_ [Hloop _]]].
  destruct (Hloop (serialEvent (terminated (lit "X:1 Y:2")) power_on) eq_refl)
    as [Hrun [Hbuf _]].
  split; [exact Hbuf | rewrite Hrun; vm_compute; reflexivity].
Defined.

(** ** The axis positions *)



Lemma setup_positions (st : state) :
  posX (setup st) = posX st /\ posY (setup st) = posY st.
Proof. destruct st. split; reflexivity. Qed.







(** ** The order of the markers *)

(** With no space after the marker [X:], [indexOf] returns -1 for the end
    of the X field, [substring] reads it as the largest [unsigned int],
    and the field runs to the end of the command. *)
Lemma xStr_to_end (command : WString.t) :
  fits command -> occurs (lit "X:") command ->
  ~ In " "%char (skipn (Z.to_nat (xIndex_of command + 2)) command) ->
  xStr_of command = skipn (Z.to_nat (xIndex_of command + 2)) command.
Proof.
  intros Hfit Hocc Hsp.
  destruct (indexOf_complete (lit "X:") command Hfit) as [post [H0 [H2 _]]];
    [discriminate | exact Hocc |].
  fold (xIndex_of command) in H0, H2.
  change (len (lit "X:")) with 2 in H2.
  unfold xStr_of. cbv zeta. destruct Hfit as [Hfit _]. unfold INT_MAX in Hfit.
  set (xi := xIndex_of command) in *.
  rewrite (to_int_small (xi + 2)) by (unfold INT_MAX; lia).
  assert (Hend : indexOf_char " " command (xi + 2) = -1).
  { unfold indexOf_char. rewrite to_unsigned_small by lia.
    destruct (xi + 2 >=? len command); [reflexivity|].
    now rewrite (strchr_absent _ _ Hsp). }
  rewrite Hend. unfold substring.
  rewrite to_unsigned_minus_one, to_unsigned_small by lia.
  destruct (xi + 2 >? 65535) eqn:Hswap; [lia|].
  destruct (xi + 2 >=? len command) eqn:Hpast.
  - symmetry. apply skipn_all2. unfold len in *. lia.
  - destruct (65535 >? len command) eqn:Hcut; [|lia].
    apply firstn_all2. rewrite length_skipn. unfold len in *. lia.
Qed.

(** C10: a line whose trimmed text holds both markers is accepted and
    dispatched, whichever marker comes first; when no space follows the
    marker [X:], the X field runs to the end of the trimmed line.  The
    line [Y:45 X:90] is processed with X read as 90 and Y read as 45. *)
Theorem marker_order_free :
  (forall (received : WString.t) (st : state),
      fits received ->
      occurs (lit "X:") (trim received) -> occurs (lit "Y:") (trim received) ->
      let command := trim received in
      let st' := processCommand received st in
      accepted command = true
      /\ posX st' = Core.constrain (newX_of command) 0 180
      /\ posY st' = Core.constrain (newY_of command) 0 180
      /\ pwm_writes st'
         = pwm_writes st ++ [(SERVO_X_CHANNEL, microseconds_of (posX st'));
                             (SERVO_Y_CHANNEL, microseconds_of (posY st'))]
      /\ serial_out st'
         = serial_out st ++ line (ok_line (posX st') (posY st'))
      /\ (~ In " "%char (skipn (Z.to_nat (xIndex_of command + 2)) command) ->
          xStr_of command = skipn (Z.to_nat (xIndex_of command + 2)) command))
  /\ (forall st : state,
         let st' := processCommand (lit "Y:45 X:90") st in
         xStr_of (trim (lit "Y:45 X:90")) = lit "90"
         /\ newX_of (trim (lit "Y:45 X:90")) = 90
         /\ newY_of (trim (lit "Y:45 X:90")) = 45
         /\ posX st' = 90 /\ posY st' = 45
         /\ serial_out st' = serial_out st ++ line (lit "OK X:90 Y:45")
         /\ pwm_writes st' = pwm_writes st ++ [(0, 1500); (1, 1050)]).
Proof.
  split.
  - intros received st Hfit Hx Hy command st'.
    apply fits_trim in Hfit. fold command in Hfit, Hx, Hy.
    assert (Hacc : accepted command = true).
    { unfold accepted, xIndex_of, yIndex_of.
      destruct (indexOf_complete (lit "X:") command Hfit) as [_ [H1 _]];
        [discriminate | exact Hx |].
      destruct (indexOf_complete (lit "Y:") command Hfit) as [_ [H2 _]];
        [discriminate | exact Hy |].
      apply andb_true_iff. split; apply Z.geb_le; lia. }
    subst st'. rewrite (processCommand_dispatch received st Hacc).
    cbv zeta. fold command. cbn [posX posY pwm_writes serial_out].
    repeat split; try reflexivity; try exact Hacc.
    now apply xStr_to_end.
  - intros st. cbv zeta.
    rewrite (reads_as_processed _ 90 45 st) by reflexivity.
    rewrite !microseconds_of_linear.
    repeat split; reflexivity.
Qed.

Lemma marker_order_free_witness :
  accepted (trim (terminated (lit "Y:10 X:20"))) = true
  /\ xStr_of (trim (terminated (lit "Y:10 X:20"))) = lit "20"
  /\ posX (processCommand (terminated (lit "Y:10 X:20")) power_on) = 20
  /\ posY (processCommand (terminated (lit "Y:10 X:20")) power_on) = 10.
Proof.
  destruct marker_order_free as [Hfree _].
  assert (Hfit : fits (terminated (lit "Y:10 X:20")))
    by (split; [discriminate | apply not_in_text; reflexivity]).
  assert (Hx : occurs (lit "X:") (trim (terminated (lit "Y:10 X:20"))))
    by (exists (lit "Y:10 "), (lit "20"); reflexivity).
  assert (Hy : occurs (lit "Y:") (trim (terminated (lit "Y:10 X:20"))))
    by (exists [], (lit "10 X:20"); reflexivity).
  destruct (Hfree _ power_on Hfit Hx Hy) as [Hacc [HX [HY [_ [_ Hend]]]]].
  split; [exact Hacc|].
  split; [rewrite Hend;
          [reflexivity | vm_compute; intros [H | [H | []]]; discriminate H]|].
  split; [rewrite HX | rewrite HY]; vm_compute; reflexivity.
Defined.

(** * Further properties of the sketch *)

(** ** Reception and polling *)

Lemma serialEvent_byte_state (inChar : ascii) (st : state) :
  serialEvent_byte inChar st
  = set_stringComplete (stringComplete st || Ascii.eqb inChar Core.LF)
      (set_inputString (inputString st ++ [inChar]) st).
Proof.
  unfold serialEvent_byte. destruct st as [px py buf flag out writes].
  destruct (Ascii.eqb inChar Core.LF); cbn; [now rewrite orb_true_r|].
  now rewrite orb_false_r.
Qed.

(** [serialEvent] as one update of the receiver. *)
Lemma serialEvent_state (avail : list ascii) (st : state) :
  serialEvent avail st
  = set_stringComplete (stringComplete st || has_terminator avail)
      (set_inputString (inputString st ++ avail) st).
Proof.
  unfold serialEvent, has_terminator. revert st.
  induction avail as [|c avail IH]; intros st; simpl.
  - destruct st as [px py buf flag out writes]. cbn.
    now rewrite orb_false_r, app_nil_r.
  - rewrite IH, serialEvent_byte_state.
    destruct st as [px py buf flag out writes]. cbn.
    now rewrite <- app_assoc, orb_assoc.
Qed.

(** [processCommand] neither reads nor writes the receiver. *)
Lemma processCommand_receiver (command buf : WString.t) (flag : bool) (st : state) :
  processCommand command (set_stringComplete flag (set_inputString buf st))
  = set_stringComplete flag (set_inputString buf (processCommand command st)).
Proof.
  destruct (accepted (trim command)) eqn:Hacc.
  - rewrite !(processCommand_accept command _ Hacc). cbv zeta.
    generalize (Core.constrain (newX_of (trim command)) 0 180).
    generalize (Core.constrain (newY_of (trim command)) 0 180).
    intros y x. generalize (microseconds_of x) (microseconds_of y).
    generalize (Core.print_long x) (Core.print_long y).
    intros tx ty ux uy. destruct st; reflexivity.
  - rewrite !(processCommand_reject command _ Hacc).
    destruct st; reflexivity.
Qed.

Lemma reset_receiver (buf : WString.t) (flag : bool) (st : state) :
  reset (set_stringComplete flag (set_inputString buf st)) = reset st.
Proof. destruct st; reflexivity. Qed.

(** X1: bytes that arrive in two bursts leave the receiver as the same
    bytes arriving at once do; the buffer grows by the bytes received and
    the line is marked complete when it was already or when a terminator
    is among them. *)
Theorem reception_by_bursts (first second : list ascii) (st : state) :
  serialEvent second (serialEvent first st) = serialEvent (first ++ second) st
  /\ inputString (serialEvent (first ++ second) st)
     = inputString st ++ first ++ second
  /\ stringComplete (serialEvent (first ++ second) st)
     = stringComplete st || has_terminator first || has_terminator second.
Proof.
  split; [unfold serialEvent; now rewrite fold_left_app|].
  rewrite serialEvent_state. destruct st as [px py buf flag out writes]. cbn.
  split; [reflexivity|]. unfold has_terminator.
  now rewrite existsb_app, orb_assoc.
Qed.

(** X2: while no line is marked complete and no terminator has arrived,
    a turn of [loop] processes nothing: the bytes of the unfinished line
    stay in the buffer, no response is sent, no pulse is written and the
    positions stay. *)
Theorem unfinished_line_waits (avail : list ascii) (st : state) :
  stringComplete st = false -> has_terminator avail = false ->
  loop (serialEvent avail st) = serialEvent avail st
  /\ inputString (loop (serialEvent avail st)) = inputString st ++ avail
  /\ serial_out (loop (serialEvent avail st)) = serial_out st
  /\ pwm_writes (loop (serialEvent avail st)) = pwm_writes st
  /\ posX (loop (serialEvent avail st)) = posX st
  /\ posY (loop (serialEvent avail st)) = posY st.
Proof.
  intros Hflag Hterm.
  assert (Hloop : loop (serialEvent avail st) = serialEvent avail st).
  { unfold loop. rewrite serialEvent_state, Hflag, Hterm.
    destruct st; reflexivity. }
  rewrite Hloop, serialEvent_state.
  destruct st. repeat split; reflexivity.
Qed.

Lemma unfinished_line_waits_witness :
  loop (serialEvent (lit "X:90 Y") power_on) = serialEvent (lit "X:90 Y") power_on
  /\ posX (loop (serialEvent (lit "X:90 Y") power_on)) = 90.
Proof.
  destruct (unfinished_line_waits (lit "X:90 Y") power_on eq_refl eq_refl)
    as [Hloop [_ [_ [_ [HX _]]]]].
  split; [exact Hloop | exact HX].
Defined.

(** X3: once a terminator is among the bytes received, the next turn of
    [loop] hands the whole buffer, whatever was left in it before followed
    by the new bytes, to [processCommand] exactly once, and leaves the
    buffer empty and the mark cleared. *)
Theorem finished_line_processed (avail : list ascii) (st : state) :
  has_terminator avail = true ->
  loop (serialEvent avail st)
  = reset (processCommand (inputString st ++ avail) st)
  /\ inputString (loop (serialEvent avail st)) = []
  /\ stringComplete (loop (serialEvent avail st)) = false.
Proof.
  intros Hterm.
  assert (Hloop : loop (serialEvent avail st)
                  = reset (processCommand (inputString st ++ avail) st)).
  { unfold loop. rewrite serialEvent_state, Hterm, orb_true_r.
    cbv zeta.
    replace (stringComplete (set_stringComplete true
               (set_inputString (inputString st ++ avail) st))) with true
      by (destruct st; reflexivity).
    replace (inputString (set_stringComplete true
               (set_inputString (inputString st ++ avail) st)))
      with (inputString st ++ avail) by (destruct st; reflexivity).
    rewrite processCommand_receiver. apply reset_receiver. }
  rewrite Hloop. repeat split; reflexivity.
Qed.

Lemma finished_line_processed_witness :
  loop (serialEvent (terminated (lit "X:10 Y:20")) power_on)
  = reset (processCommand (terminated (lit "X:10 Y:20")) power_on).
Proof.
  exact (proj1 (finished_line_processed (terminated (lit "X:10 Y:20"))
                  power_on eq_refl)).
Defined.

(** ** What the output driver is given *)

Lemma microseconds_of_bounds (angle : Z) :
  USMIN <= microseconds_of angle <= USMAX.
Proof.
  rewrite microseconds_of_linear. unfold USMIN, USMAX.
  pose proof (constrain_range angle). lia.
Qed.

(** The two effects of [processCommand] on positions and pulses. *)
Lemma processCommand_outputs (command : WString.t) (st : state) :
  (accepted (trim command) = true
   /\ pwm_writes (processCommand command st)
      = pwm_writes st
        ++ [(SERVO_X_CHANNEL, microseconds_of (posX (processCommand command st)));
            (SERVO_Y_CHANNEL, microseconds_of (posY (processCommand command st)))])
  \/ (accepted (trim command) = false
      /\ pwm_writes (processCommand command st) = pwm_writes st
      /\ posX (processCommand command st) = posX st
      /\ posY (processCommand command st) = posY st).
Proof.
  destruct (accepted (trim command)) eqn:Hacc.
  - left. rewrite (processCommand_accept command st Hacc).
    cbv zeta. cbn [posX posY pwm_writes]. split; reflexivity.
  - right. rewrite (processCommand_reject command st Hacc).
    cbn [posX posY pwm_writes]. repeat split; reflexivity.
Qed.

Lemma reset_outputs (st : state) :
  posX (reset st) = posX st /\ posY (reset st) = posY st
  /\ pwm_writes (reset st) = pwm_writes st
  /\ serial_out (reset st) = serial_out st.
Proof. destruct st. now repeat split. Qed.

Lemma loop_unfold (st : state) :
  loop st
  = if stringComplete st then reset (processCommand (inputString st) st) else st.
Proof. reflexivity. Qed.

Lemma synced_processCommand (command : WString.t) (st : state) :
  synced st -> synced (processCommand command st).
Proof.
  unfold synced. intros [earlier Hst].
  destruct (processCommand_outputs command st) as [[_ Hw] | [_ [Hw [HX HY]]]].
  - exists (pwm_writes st). exact Hw.
  - exists earlier. now rewrite Hw, HX, HY.
Qed.

Lemma synced_step (st : state) (e : event) : synced st -> synced (step st e).
Proof.
  unfold synced. destruct e as [avail|]; simpl.
  - destruct (serialEvent_rest avail st) as [-> [-> [_ ->]]]. auto.
  - rewrite loop_unfold. destruct (stringComplete st); [|auto].
    intros H. apply (synced_processCommand (inputString st)) in H.
    destruct (reset_outputs (processCommand (inputString st) st))
      as [-> [-> [-> _]]].
    exact H.
Qed.

Lemma setup_writes (st : state) :
  pwm_writes (setup st)
  = pwm_writes st ++ [(SERVO_X_CHANNEL, microseconds_of (posX st));
                      (SERVO_Y_CHANNEL, microseconds_of (posY st))].
Proof.
  destruct st as [px py buf flag out writes].
  cbv beta iota zeta delta
    [setup Serial_println Serial_print setServoAngle microseconds_of
     pwm_writeMicroseconds posX posY inputString stringComplete serial_out
     pwm_writes].
  now rewrite <- app_assoc.
Qed.

Lemma synced_setup (st : state) : synced (setup st).
Proof.
  exists (pwm_writes st). destruct (setup_positions st) as [-> ->].
  apply setup_writes.
Qed.

(** X4: from [setup] on, through every sequence of received bytes and
    turns of [loop], the last pulse written to channel 0 and the last
    pulse written to channel 1 are the pulses of the X and Y positions
    held: the outputs never lag behind the positions. *)
Theorem outputs_follow_positions (st : state) (events : list event) :
  synced (execute events (setup st)).
Proof.
  unfold execute. generalize (synced_setup st). generalize (setup st).
  induction events as [|e events IH]; intros s Hs; simpl; [exact Hs|].
  apply IH, synced_step, Hs.
Qed.

Lemma servo_pair (x y : Z) :
  Forall servo_write [(SERVO_X_CHANNEL, microseconds_of x);
                      (SERVO_Y_CHANNEL, microseconds_of y)].
Proof.
  apply Forall_cons; [split; [now left | apply microseconds_of_bounds]|].
  apply Forall_cons; [split; [now right | apply microseconds_of_bounds]|].
  constructor.
Qed.

Lemma servo_writes_processCommand (command : WString.t) (st : state) :
  Forall servo_write (pwm_writes st) ->
  Forall servo_write (pwm_writes (processCommand command st)).
Proof.
  intros H.
  destruct (processCommand_outputs command st) as [[_ Hw] | [_ [Hw _]]];
    rewrite Hw; [|exact H].
  apply Forall_app. split; [exact H|]. apply servo_pair.
Qed.

Lemma servo_writes_step (st : state) (e : event) :
  Forall servo_write (pwm_writes st) ->
  Forall servo_write (pwm_writes (step st e)).
Proof.
  destruct e as [avail|]; simpl.
  - destruct (serialEvent_rest avail st) as [_ [_ [_ ->]]]. auto.
  - rewrite loop_unfold. destruct (stringComplete st); [|auto].
    intros H. apply (servo_writes_processCommand (inputString st)) in H.
    destruct (reset_outputs (processCommand (inputString st) st))
      as [_ [_ [-> _]]].
    exact H.
Qed.

(** X5: whatever bytes are received, every call of the output driver the
    sketch makes, in [setup] or later, addresses channel 0 or channel 1
    and carries a pulse width in 600..2400 microseconds. *)
Theorem every_write_is_a_servo_pulse (events : list event) :
  Forall servo_write (pwm_writes (execute events (setup power_on))).
Proof.
  unfold execute.
  assert (H0 : Forall servo_write (pwm_writes (setup power_on))).
  { rewrite setup_writes. apply servo_pair. }
  revert H0. generalize (setup power_on).
  induction events as [|e events IH]; intros s Hs; simpl; [exact Hs|].
  apply IH, servo_writes_step, Hs.
Qed.

(** ** Repeated commands *)

(** X6: processing the same line a second time changes nothing further:
    the positions are those the first processing left, and the second
    response and the second pulses are copies of the first, whether the
    line is accepted or rejected. *)
Theorem repeated_command_idempotent (command : WString.t) (st : state) :
  let once := processCommand command st in
  let twice := processCommand command once in
  posX twice = posX once /\ posY twice = posY once
  /\ exists response pulses,
       serial_out once = serial_out st ++ response
       /\ serial_out twice = serial_out once ++ response
       /\ pwm_writes once = pwm_writes st ++ pulses
       /\ pwm_writes twice = pwm_writes once ++ pulses.
Proof.
  cbv zeta. destruct (accepted (trim command)) eqn:Hacc.
  - rewrite !(processCommand_dispatch command _ Hacc). cbv zeta.
    cbn [posX posY serial_out pwm_writes].
    split; [reflexivity|]. split; [reflexivity|].
    eexists. eexists. repeat split; reflexivity.
  - rewrite !(processCommand_reject command _ Hacc).
    cbn [posX posY serial_out pwm_writes].
    split; [reflexivity|]. split; [reflexivity|].
    exists (line error_line), []. now rewrite !app_nil_r.
Qed.

(** ** White space around a command *)

Lemma skip_space_blank (ws s : WString.t) :
  forallb isspace ws = true -> skip_space (ws ++ s) = skip_space s.
Proof.
  induction ws as [|c ws IH]; simpl; [reflexivity|].
  rewrite andb_true_iff. intros [-> H]. now apply IH.
Qed.

Lemma skip_space_app (s tail : WString.t) :
  skip_space s <> [] -> skip_space (s ++ tail) = skip_space s ++ tail.
Proof.
  induction s as [|c s IH]; simpl; [congruence|].
  destruct (isspace c); [exact IH | reflexivity].
Qed.

Lemma skip_space_nothing (s : WString.t) :
  skip_space s = [] -> forallb isspace s = true.
Proof.
  induction s as [|c s IH]; simpl; [reflexivity|].
  destruct (isspace c); [exact IH | discriminate].
Qed.

Lemma forallb_rev (f : ascii -> bool) (s : list ascii) :
  forallb f s = true -> forallb f (rev s) = true.
Proof.
  rewrite !forallb_forall. intros H c Hc. apply H, in_rev, Hc.
Qed.

(** [trim] does not see the white space put around a text. *)
Lemma trim_padded (before after s : WString.t) :
  forallb isspace before = true -> forallb isspace after = true ->
  trim (before ++ s ++ after) = trim s.
Proof.
  intros Hb Ha. unfold trim. rewrite (skip_space_blank before _ Hb).
  destruct (skip_space s) as [|c r] eqn:Hs.
  - apply skip_space_nothing in Hs.
    assert (Hall : forallb isspace (s ++ after) = true)
      by (rewrite forallb_app, Hs, Ha; reflexivity).
    rewrite <- (app_nil_r (s ++ after)), (skip_space_blank _ [] Hall).
    reflexivity.
  - rewrite skip_space_app by congruence. rewrite Hs, rev_app_distr.
    now rewrite (skip_space_blank (rev after) _ (forallb_rev _ _ Ha)).
Qed.

(** X7: white space before and after a line (spaces, tabs, carriage
    returns, line feeds) has no effect on how the line is processed; in
    particular the terminator stored with the line, alone or after a
    carriage return, changes nothing. *)
Theorem surrounding_space_ignored
        (before after command : WString.t) (st : state) :
  forallb isspace before = true -> forallb isspace after = true ->
  processCommand (before ++ command ++ after) st = processCommand command st.
Proof.
  intros Hb Ha. unfold processCommand.
  rewrite (trim_padded before after command Hb Ha). reflexivity.
Qed.

Lemma surrounding_space_ignored_witness :
  processCommand (lit "  " ++ lit "X:90 Y:45" ++ Core.CRLF) power_on
  = processCommand (lit "X:90 Y:45") power_on.
Proof.
  apply (surrounding_space_ignored (lit "  ") Core.CRLF (lit "X:90 Y:45"));
    reflexivity.
Defined.

(** ** The two value fields *)

(** The index [indexOf] returns is that of the first occurrence. *)
Lemma indexOf_first (pat s pre post : WString.t) :
  fits s -> s = pre ++ pat ++ post -> indexOf pat s <= len pre.
Proof.
  unfold fits, len. intros [Hfit _] Hs.
  assert (Hls : List.length s
                = (List.length pre + List.length pat + List.length post)%nat)
    by (rewrite Hs, !length_app; lia).
  unfold indexOf, indexOf_from. rewrite to_unsigned_small by lia.
  destruct (0 >=? len s); [lia|]. simpl skipn.
  destruct (strstr_complete pre pat post) as [k [Hk Hle]].
  rewrite <- Hs in Hk. rewrite Hk. unfold found_index.
  rewrite to_int_small by (unfold INT_MAX in *; lia). lia.
Qed.

Lemma until_space_found (s : WString.t) (k : nat) :
  strchr s " " = Some k -> firstn k s = until_space s.
Proof.
  revert k. induction s as [|c s IH]; intros k; simpl; [discriminate|].
  destruct (Ascii.eqb c " ").
  - now intros [= <-].
  - destruct (strchr s " ") as [j|]; [|discriminate].
    simpl. intros [= <-]. simpl. now rewrite (IH j).
Qed.

Lemma until_space_missing (s : WString.t) :
  strchr s " " = None -> until_space s = s.
Proof.
  induction s as [|c s IH]; simpl; [reflexivity|].
  destruct (Ascii.eqb c " "); [discriminate|].
  destruct (strchr s " "); [discriminate|].
  intros _. now rewrite IH.
Qed.

Lemma substring_to_end (s : WString.t) (from : Z) :
  len s <= INT_MAX -> 0 <= from <= len s ->
  substring_from s from = skipn (Z.to_nat from) s.
Proof.
  unfold INT_MAX. intros Hfit Hfrom. unfold substring_from, substring.
  rewrite !to_unsigned_small by lia.
  destruct (from >? len s) eqn:Hswap; [lia|].
  destruct (from >=? len s) eqn:Hpast.
  - symmetry. apply skipn_all2. unfold len in *. lia.
  - destruct (len s >? len s) eqn:Hcut; [lia|].
    apply firstn_all2. rewrite length_skipn. unfold len in *. lia.
Qed.

Lemma xStr_until_space (command : WString.t) :
  fits command -> occurs (lit "X:") command ->
  xStr_of command
  = until_space (skipn (Z.to_nat (xIndex_of command + 2)) command).
Proof.
  intros Hfit Hocc.
  destruct (indexOf_complete (lit "X:") command Hfit) as [post [H0 [H2 _]]];
    [discriminate | exact Hocc |].
  fold (xIndex_of command) in H0, H2.
  change (len (lit "X:")) with 2 in H2.
  unfold xStr_of. cbv zeta. destruct Hfit as [Hfit _]. unfold INT_MAX in Hfit.
  set (xi := xIndex_of command) in *.
  rewrite (to_int_small (xi + 2)) by (unfold INT_MAX; lia).
  set (rest := skipn (Z.to_nat (xi + 2)) command).
  assert (Hrest : Z.of_nat (List.length rest) = len command - (xi + 2))
    by (unfold rest, len in *; rewrite length_skipn; lia).
  unfold indexOf_char. rewrite to_unsigned_small by lia. fold rest.
  destruct (strchr rest " ") as [k|] eqn:Hk.
  - pose proof (strchr_found _ _ _ Hk) as Hlt.
    destruct (xi + 2 >=? len command) eqn:Hpast; [lia|].
    unfold found_index. rewrite to_int_small by (unfold INT_MAX; lia).
    unfold substring. rewrite !to_unsigned_small by lia.
    destruct (xi + 2 >? xi + 2 + Z.of_nat k) eqn:Hswap; [lia|].
    rewrite Hpast.
    destruct (xi + 2 + Z.of_nat k >? len command) eqn:Hcut; [lia|].
    fold rest. replace (xi + 2 + Z.of_nat k - (xi + 2)) with (Z.of_nat k) by lia.
    rewrite Nat2Z.id. now apply until_space_found.
  - rewrite (until_space_missing rest Hk).
    assert (Hend : (if xi + 2 >=? len command then -1
                    else found_index (xi + 2) None) = -1)
      by (destruct (xi + 2 >=? len command); reflexivity).
    rewrite Hend. unfold substring.
    rewrite to_unsigned_minus_one, to_unsigned_small by lia.
    destruct (xi + 2 >? 65535) eqn:Hswap; [lia|].
    destruct (xi + 2 >=? len command) eqn:Hpast.
    + symmetry. apply skipn_all2. unfold len in *. lia.
    + destruct (65535 >? len command) eqn:Hcut; [|lia].
      apply firstn_all2. lia.
Qed.

Lemma yStr_to_end (command : WString.t) :
  fits command -> occurs (lit "Y:") command ->
  yStr_of command = skipn (Z.to_nat (yIndex_of command + 2)) command.
Proof.
  intros Hfit Hocc.
  destruct (indexOf_complete (lit "Y:") command Hfit) as [post [H0 [H2 _]]];
    [discriminate | exact Hocc |].
  fold (yIndex_of command) in H0, H2.
  change (len (lit "Y:")) with 2 in H2.
  unfold yStr_of. cbv zeta. destruct Hfit as [Hfit _].
  rewrite to_int_small by (unfold INT_MAX in *; lia).
  apply substring_to_end; [exact Hfit | lia].
Qed.

(** X8: in a line that holds both markers, the X field is the text after
    the first [X:] up to the first space behind it (to the end of the
    trimmed line when there is none), and the Y field is all the text
    after the first [Y:], to the end of the trimmed line. *)
Theorem value_fields (received : WString.t) :
  fits received ->
  occurs (lit "X:") received -> occurs (lit "Y:") received ->
  let command := trim received in
  (exists before after, command = before ++ lit "X:" ++ after
      /\ (forall pre post, command = pre ++ lit "X:" ++ post ->
             len before <= len pre)
      /\ xStr_of command = until_space after)
  /\ (exists before after, command = before ++ lit "Y:" ++ after
      /\ (forall pre post, command = pre ++ lit "Y:" ++ post ->
             len before <= len pre)
      /\ yStr_of command = after).
Proof.
  intros Hfit Hx Hy command.
  apply (occurs_trim "X" ":" _ not_space_X not_space_colon) in Hx.
  apply (occurs_trim "Y" ":" _ not_space_Y not_space_colon) in Hy.
  apply fits_trim in Hfit. fold command in Hfit, Hx, Hy.
  split.
  - destruct (indexOf_complete (lit "X:") command Hfit) as [post [H0 [H2 Hp]]];
      [discriminate | exact Hx |].
    fold (xIndex_of command) in H0, H2, Hp.
    change (len (lit "X:")) with 2 in H2.
    exists (firstn (Z.to_nat (xIndex_of command)) command), post.
    split; [rewrite <- Hp; symmetry; apply firstn_skipn|].
    split.
    + intros pre post' Hpre.
      pose proof (indexOf_first (lit "X:") command pre post' Hfit Hpre) as H1.
      fold (xIndex_of command) in H1.
      unfold len in *. rewrite length_firstn. lia.
    + rewrite (xStr_until_space command Hfit Hx).
      rewrite Z2Nat.inj_add by lia. rewrite Nat.add_comm, <- skipn_skipn, Hp.
      reflexivity.
  - destruct (indexOf_complete (lit "Y:") command Hfit) as [post [H0 [H2 Hp]]];
      [discriminate | exact Hy |].
    fold (yIndex_of command) in H0, H2, Hp.
    change (len (lit "Y:")) with 2 in H2.
    exists (firstn (Z.to_nat (yIndex_of command)) command), post.
    split; [rewrite <- Hp; symmetry; apply firstn_skipn|].
    split.
    + intros pre post' Hpre.
      pose proof (indexOf_first (lit "Y:") command pre post' Hfit Hpre) as H1.
      fold (yIndex_of command) in H1.
      unfold len in *. rewrite length_firstn. lia.
    + rewrite (yStr_to_end command Hfit Hy).
      rewrite Z2Nat.inj_add by lia. rewrite Nat.add_comm, <- skipn_skipn, Hp.
      reflexivity.
Qed.

Lemma value_fields_witness :
  let command := trim (terminated (lit "X:12 extra Y:34")) in
  (exists before after, command = before ++ lit "X:" ++ after
      /\ (forall pre post, command = pre ++ lit "X:" ++ post ->
             len before <= len pre)
      /\ xStr_of command = until_space after)
  /\ (exists before after, command = before ++ lit "Y:" ++ after
      /\ (forall pre post, command = pre ++ lit "Y:" ++ post ->
             len before <= len pre)
      /\ yStr_of command = after).
Proof.
  apply (value_fields (terminated (lit "X:12 extra Y:34"))).
  - split; [discriminate | apply not_in_text; reflexivity].
  - exists [], (terminated (lit "12 extra Y:34")). reflexivity.
  - exists (lit "X:12 extra "), (terminated (lit "34")). reflexivity.
Defined.

(** ** Printed numbers read back *)

Lemma digit_char_digit (c : Z) :
  0 <= c < 10 ->
  isdigit (Core.digit_char c) = true /\ digit_value (Core.digit_char c) = c.
Proof.
  intros H.
  assert (Hc : c = 0 \/ c = 1 \/ c = 2 \/ c = 3 \/ c = 4 \/ c = 5 \/ c = 6
               \/ c = 7 \/ c = 8 \/ c = 9) by lia.
  repeat (destruct Hc as [-> | Hc]; [split; reflexivity|]).
  subst c. split; reflexivity.
Qed.

Lemma printNumber_loop_step (fuel : nat) (n : Z) (str : list ascii) :
  Core.printNumber_loop (S fuel) n str
  = if n / 10 =? 0 then Core.digit_char (n mod 10) :: str
    else Core.printNumber_loop fuel (n / 10) (Core.digit_char (n mod 10) :: str).
Proof. reflexivity. Qed.

(** What the loop of [printNumber] puts in front of [str]: at least one
    digit, at most as many as the fuel, and read back by the digit loop of
    [atol] they give [n]. *)
Lemma printNumber_loop_digits (fuel : nat) :
  forall (n : Z) (str : list ascii),
    0 <= n < 10 ^ Z.of_nat (S fuel) ->
    exists ds,
      Core.printNumber_loop (S fuel) n str = ds ++ str
      /\ ds <> []
      /\ forallb isdigit ds = true
      /\ (List.length ds <= S fuel)%nat
      /\ forall acc rest,
           digits (ds ++ rest) acc
           = digits rest (acc * 10 ^ Z.of_nat (List.length ds) + n).
Proof.
  induction fuel as [|fuel IH]; intros n str Hn;
    rewrite (printNumber_loop_step _ n str);
    pose proof (Z.div_mod n 10 ltac:(lia)) as Hdm;
    pose proof (Z.mod_pos_bound n 10 ltac:(lia)) as Hmod;
    destruct (digit_char_digit (n mod 10) Hmod) as [Hdig Hval];
    destruct (n / 10 =? 0) eqn:Hq.
  - exists [Core.digit_char (n mod 10)].
    apply Z.eqb_eq in Hq.
    repeat split; [discriminate | simpl; now rewrite Hdig | simpl; lia |].
    intros acc rest. simpl. rewrite Hdig, Hval. f_equal. lia.
  - apply Z.eqb_neq in Hq. change (10 ^ Z.of_nat 1) with 10 in Hn.
    assert (n / 10 = 0) by (apply Z.div_small; lia). contradiction.
  - exists [Core.digit_char (n mod 10)].
    apply Z.eqb_eq in Hq.
    repeat split; [discriminate | simpl; now rewrite Hdig | simpl; lia |].
    intros acc rest. simpl. rewrite Hdig, Hval. f_equal. lia.
  - assert (Hq' : 0 <= n / 10 < 10 ^ Z.of_nat (S fuel)).
    { rewrite (Nat2Z.inj_succ (S fuel)), Z.pow_succ_r in Hn by lia.
      split; [apply Z.div_pos; lia | apply Z.div_lt_upper_bound; lia]. }
    destruct (IH (n / 10) (Core.digit_char (n mod 10) :: str) Hq')
      as [ds [Hds [Hne [Hall [Hlen Hread]]]]].
    exists (ds ++ [Core.digit_char (n mod 10)]).
    split; [rewrite Hds, <- app_assoc; reflexivity|].
    split; [destruct ds; discriminate|].
    split; [rewrite forallb_app, Hall; simpl; now rewrite Hdig|].
    split; [rewrite length_app; simpl; lia|].
    intros acc rest. rewrite <- app_assoc, Hread. simpl.
    rewrite Hdig, Hval. f_equal.
    rewrite length_app, Nat2Z.inj_add. simpl List.length.
    rewrite Z.pow_add_r by lia. change (10 ^ Z.of_nat 1) with 10.
    rewrite Z.mul_assoc.
    generalize (acc * 10 ^ Z.of_nat (List.length ds)). intros shifted. lia.
Qed.

Lemma digits_stop (s : WString.t) (acc : Z) :
  no_digit_ahead s = true -> digits s acc = acc.
Proof.
  destruct s as [|c r]; simpl; [reflexivity|].
  now destruct (isdigit c).
Qed.

Lemma numeral_not (c x : ascii) :
  numeral_char x = false -> numeral_char c = true -> c <> x.
Proof. intros Hx Hc ->. congruence. Qed.

Lemma numeral_not_space (c : ascii) :
  numeral_char c = true -> isspace c = false.
Proof.
  unfold numeral_char, isdigit, isspace. intros H.
  apply orb_true_iff in H. destruct H as [H | H].
  - apply andb_true_iff in H. destruct H as [H1 H2].
    apply Z.leb_le in H1, H2.
    destruct (code c =? 32) eqn:E1; [apply Z.eqb_eq in E1; lia|].
    destruct (9 <=? code c) eqn:E2; [|reflexivity].
    destruct (code c <=? 13) eqn:E3; [apply Z.leb_le in E3; lia | reflexivity].
  - apply Ascii.eqb_eq in H. subst c. reflexivity.
Qed.

(** The text [Print::print] produces for a [long]: an optional minus sign
    and digits, at most 33 characters, which [atol] reads back as the
    number, whatever non-digit text follows. *)
Lemma print_long_text (n : Z) :
  -2147483648 <= n < 2147483648 ->
  Core.print_long n <> []
  /\ forallb numeral_char (Core.print_long n) = true
  /\ (List.length (Core.print_long n) <= 33)%nat
  /\ forall rest, no_digit_ahead rest = true ->
                  atol (Core.print_long n ++ rest) = n.
Proof.
  intros Hn. unfold Core.print_long, Core.printNumber.
  destruct (n <? 0) eqn:Hneg.
  - apply Z.ltb_lt in Hneg.
    rewrite (Z.mod_small (- n)) by (change (2 ^ 32) with 4294967296; lia).
    destruct (printNumber_loop_digits 31 (- n) [])
      as [ds [Hds [Hne [Hall [Hlen Hread]]]]].
    { change (10 ^ Z.of_nat 32) with 100000000000000000000000000000000. lia. }
    rewrite Hds, app_nil_r.
    split; [discriminate|].
    split.
    { simpl. apply forallb_forall. intros c Hc. unfold numeral_char.
      rewrite forallb_forall in Hall. now rewrite (Hall c Hc). }
    split; [simpl; lia|].
    intros rest Hrest. unfold atol. cbn [app skip_space].
    change (isspace "-") with false. cbv iota.
    change (Ascii.eqb "-" "-") with true. cbv iota.
    rewrite Hread, (digits_stop rest _ Hrest), Z.mul_0_l, Z.add_0_l.
    rewrite Z.opp_involutive. apply to_long_small. lia.
  - apply Z.ltb_ge in Hneg.
    destruct (printNumber_loop_digits 31 n [])
      as [ds [Hds [Hne [Hall [Hlen Hread]]]]].
    { change (10 ^ Z.of_nat 32) with 100000000000000000000000000000000. lia. }
    rewrite Hds, app_nil_r.
    split; [exact Hne|].
    split.
    { apply forallb_forall. intros c Hc. unfold numeral_char.
      rewrite forallb_forall in Hall. now rewrite (Hall c Hc). }
    split; [lia|].
    intros rest Hrest. unfold atol.
    destruct ds as [|d ds]; [congruence|].
    simpl in Hall. apply andb_true_iff in Hall. destruct Hall as [Hd Hds'].
    assert (Hnum : numeral_char d = true) by (unfold numeral_char; now rewrite Hd).
    cbn [app skip_space]. rewrite (numeral_not_space d Hnum).
    assert (Hm : Ascii.eqb d "-" = false).
    { destruct (Ascii.eqb d "-") eqn:E; [|reflexivity].
      apply Ascii.eqb_eq in E. subst d. discriminate Hd. }
    assert (Hp : Ascii.eqb d "+" = false).
    { destruct (Ascii.eqb d "+") eqn:E; [|reflexivity].
      apply Ascii.eqb_eq in E. subst d. discriminate Hd. }
    rewrite Hm, Hp.
    change (d :: ds ++ rest) with ((d :: ds) ++ rest).
    rewrite Hread, (digits_stop rest _ Hrest), Z.mul_0_l, Z.add_0_l.
    apply to_long_small. lia.
Qed.

(** X9: every number of the range of a [long] that [Serial.print] writes
    is read back by [toInt] as the same number, also when text that does
    not begin with a digit follows it. *)
Theorem printed_number_read_back (n : Z) (rest : WString.t) :
  -2147483648 <= n < 2147483648 -> no_digit_ahead rest = true ->
  toInt (Core.print_long n ++ rest) = n.
Proof.
  intros Hn Hrest. unfold toInt.
  now apply (print_long_text n Hn).
Qed.

Lemma printed_number_read_back_witness :
  toInt (Core.print_long (-2147483648) ++ lit " X:7") = -2147483648.
Proof.
  apply (printed_number_read_back (-2147483648) (lit " X:7")); [lia | reflexivity].
Defined.

(** ** Commands written with printed numbers *)

Lemma strstr_first (p : ascii) (pre needle post : WString.t) :
  ~ In p pre ->
  strstr (pre ++ (p :: needle) ++ post) (p :: needle) = Some (List.length pre).
Proof.
  induction pre as [|c pre IH]; intros Hp; rewrite strstr_unfold.
  - assert (Hs : starts_with (p :: needle) ([] ++ (p :: needle) ++ post) = true)
      by (apply starts_with_app; now exists post).
    now rewrite Hs.
  - assert (Hc : Ascii.eqb p c = false).
    { destruct (Ascii.eqb p c) eqn:E; [|reflexivity].
      apply Ascii.eqb_eq in E. subst c. exfalso. apply Hp. now left. }
    change ((c :: pre) ++ (p :: needle) ++ post)
      with (c :: (pre ++ (p :: needle) ++ post)).
    cbn [starts_with]. rewrite Hc. cbn [andb].
    rewrite IH by (intros H; apply Hp; now right). reflexivity.
Qed.

Lemma indexOf_at (p : ascii) (pre needle post : WString.t) :
  len (pre ++ (p :: needle) ++ post) <= INT_MAX -> ~ In p pre ->
  indexOf (p :: needle) (pre ++ (p :: needle) ++ post) = len pre.
Proof.
  unfold len, INT_MAX. intros Hlen Hp.
  unfold indexOf, indexOf_from. rewrite to_unsigned_small by lia.
  destruct (0 >=? len (pre ++ (p :: needle) ++ post)) eqn:Hz.
  - apply Z.geb_le in Hz. unfold len in Hz. rewrite !length_app in Hz.
    cbn [List.length] in Hz. lia.
  - change (Z.to_nat 0) with O. cbn [skipn].
    rewrite (strstr_first p pre needle post Hp).
    unfold found_index. rewrite !length_app in Hlen.
    apply to_int_small. unfold INT_MAX. lia.
Qed.

Lemma until_space_field (field rest : WString.t) :
  ~ In " "%char field -> until_space (field ++ " "%char :: rest) = field.
Proof.
  induction field as [|c field IH]; intros H; simpl; [reflexivity|].
  destruct (Ascii.eqb c " ") eqn:E.
  - apply Ascii.eqb_eq in E. subst c. exfalso. apply H. now left.
  - rewrite IH; [reflexivity | intros Hin; apply H; now right].
Qed.

Lemma until_space_whole (field : WString.t) :
  ~ In " "%char field -> until_space field = field.
Proof.
  induction field as [|c field IH]; intros H; simpl; [reflexivity|].
  destruct (Ascii.eqb c " ") eqn:E.
  - apply Ascii.eqb_eq in E. subst c. exfalso. apply H. now left.
  - rewrite IH; [reflexivity | intros Hin; apply H; now right].
Qed.

Lemma skipn_past (l r : WString.t) : skipn (List.length l) (l ++ r) = r.
Proof. induction l as [|c l IH]; simpl; [reflexivity | exact IH]. Qed.

Lemma numeral_absent (x : ascii) (text : WString.t) :
  numeral_char x = false -> forallb numeral_char text = true -> ~ In x text.
Proof.
  intros Hx Hall Hin. rewrite forallb_forall in Hall.
  specialize (Hall x Hin). congruence.
Qed.

(** A text that begins and ends with a character that is no white space
    is left as it is by [trim]. *)
Lemma trim_fixed (s : WString.t) :
  skip_space s = s -> skip_space (rev s) = rev s -> trim s = s.
Proof. intros H1 H2. unfold trim. rewrite H1, H2. apply rev_involutive. Qed.

Lemma skip_space_rev_numeral (front text : WString.t) :
  text <> [] -> forallb numeral_char text = true ->
  skip_space (rev (front ++ text)) = rev (front ++ text).
Proof.
  intros Hne Hall. rewrite rev_app_distr.
  destruct (rev text) as [|z zs] eqn:Hrev.
  - apply (f_equal (@rev ascii)) in Hrev. rewrite rev_involutive in Hrev.
    simpl in Hrev. congruence.
  - assert (Hz : In z text) by (apply in_rev; rewrite Hrev; now left).
    rewrite forallb_forall in Hall.
    simpl. now rewrite (numeral_not_space z (Hall z Hz)).
Qed.

Lemma fits_infix (before s after : WString.t) :
  fits (before ++ s ++ after) -> fits s.
Proof.
  unfold fits, len. rewrite !length_app. intros [Hlen Hnul].
  split; [lia|]. intros Hin. apply Hnul.
  apply in_or_app. right. apply in_or_app. now left.
Qed.

Lemma skip_space_twice (s : WString.t) :
  skip_space (skip_space s) = skip_space s.
Proof.
  induction s as [|c s IH]; simpl; [reflexivity|].
  destruct (isspace c) eqn:Hc; [exact IH | simpl; now rewrite Hc].
Qed.

(** How [processCommand] reads a command made of the markers and two
    printed numbers, in the usual order, with any text behind that does
    not end in white space: both markers are found, the X field is the
    text of its number and the Y field is the text of its number followed
    by that text. *)
Lemma number_fields (X Y tail : WString.t) :
  forallb numeral_char X = true -> forallb numeral_char Y = true ->
  Y <> [] ->
  skip_space (rev tail) = rev tail ->
  let command := lit "X:" ++ X ++ lit " Y:" ++ Y ++ tail in
  fits command ->
  trim command = command /\ accepted command = true
  /\ xStr_of command = X /\ yStr_of command = Y ++ tail.
Proof.
  intros HX HY Hne Htail command Hfit.
  assert (Hlen : len command <= INT_MAX) by apply Hfit.
  assert (Hxi : xIndex_of command = 0).
  { unfold xIndex_of.
    apply (indexOf_at "X" [] [":"%char] (X ++ lit " Y:" ++ Y ++ tail));
      [exact Hlen | intros []]. }
  assert (Hsplit : command
                   = (lit "X:" ++ X ++ lit " ")
                       ++ ("Y"%char :: [":"%char]) ++ (Y ++ tail))
    by (unfold command; rewrite <- !app_assoc; reflexivity).
  assert (Hyi : yIndex_of command = 3 + len X).
  { transitivity (len (lit "X:" ++ X ++ lit " "));
      [|unfold len; rewrite !length_app; simpl List.length; lia].
    unfold yIndex_of. rewrite Hsplit. apply indexOf_at.
    - rewrite <- Hsplit. exact Hlen.
    - intros H. apply in_app_or in H. destruct H as [H | H];
        [simpl in H; intuition discriminate|].
      apply in_app_or in H. destruct H as [H | H];
        [revert H; now apply numeral_absent | simpl in H; intuition discriminate]. }
  assert (Hparts : command = (lit "X:" ++ X ++ lit " Y:") ++ Y ++ tail)
    by (unfold command; rewrite <- !app_assoc; reflexivity).
  split.
  { apply trim_fixed; [reflexivity|].
    assert (Hw : command = (lit "X:" ++ X ++ lit " Y:" ++ Y) ++ tail)
      by (unfold command; rewrite <- !app_assoc; reflexivity).
    clear Hsplit. destruct tail as [|t0 tail'].
    - rewrite Hparts, app_nil_r. now apply skip_space_rev_numeral.
    - rewrite Hw, rev_app_distr.
      rewrite skip_space_app; [now rewrite Htail|].
      rewrite Htail. simpl. intros E. symmetry in E.
      exact (app_cons_not_nil _ _ _ E). }
  split.
  { unfold accepted. rewrite Hxi, Hyi. unfold len.
    apply andb_true_iff. split; apply Z.geb_le; lia. }
  split.
  - rewrite xStr_until_space;
      [| exact Hfit | exists [], (X ++ lit " Y:" ++ Y ++ tail); reflexivity].
    rewrite Hxi. change (skipn (Z.to_nat (0 + 2)) command)
      with (X ++ " "%char :: lit "Y:" ++ Y ++ tail).
    apply until_space_field. now apply numeral_absent.
  - rewrite yStr_to_end;
      [| exact Hfit
       | exists (lit "X:" ++ X ++ lit " "), (Y ++ tail); exact Hsplit].
    rewrite Hyi.
    replace (Z.to_nat (3 + len X + 2))
      with (List.length (lit "X:" ++ X ++ lit " Y:"))
      by (unfold len; rewrite !length_app; simpl List.length; lia).
    rewrite Hparts. apply skipn_past.
Qed.

(** The same with the Y field first: the X field is the text of its
    number, the Y field is the text of its number followed by the rest of
    the line. *)
Lemma swapped_fields (X Y : WString.t) :
  forallb numeral_char X = true -> forallb numeral_char Y = true ->
  X <> [] -> (List.length X <= 33)%nat -> (List.length Y <= 33)%nat ->
  let command := lit "Y:" ++ Y ++ lit " X:" ++ X in
  trim command = command /\ accepted command = true
  /\ xStr_of command = X /\ yStr_of command = Y ++ lit " X:" ++ X.
Proof.
  intros HX HY Hne HlX HlY command.
  assert (Hlen : len command <= 100).
  { unfold command, len. rewrite !length_app. simpl List.length. lia. }
  assert (Hnul : ~ In "000"%char command).
  { unfold command. intros H.
    apply in_app_or in H. destruct H as [H | H];
      [simpl in H; intuition discriminate|].
    apply in_app_or in H. destruct H as [H | H];
      [revert H; now apply numeral_absent|].
    apply in_app_or in H. destruct H as [H | H];
      [simpl in H; intuition discriminate|].
    revert H. now apply numeral_absent. }
  assert (Hfit : fits command) by (split; [unfold INT_MAX; lia | exact Hnul]).
  assert (Hyi : yIndex_of command = 0).
  { unfold yIndex_of.
    apply (indexOf_at "Y" [] [":"%char] (Y ++ lit " X:" ++ X));
      [change (len command <= INT_MAX); unfold INT_MAX; lia | intros []]. }
  assert (Hsplit : command
                   = (lit "Y:" ++ Y ++ lit " ") ++ ("X"%char :: [":"%char]) ++ X)
    by (unfold command; rewrite <- !app_assoc; reflexivity).
  assert (Hxi : xIndex_of command = 3 + len Y).
  { transitivity (len (lit "Y:" ++ Y ++ lit " "));
      [|unfold len; rewrite !length_app; simpl List.length; lia].
    unfold xIndex_of. rewrite Hsplit. apply indexOf_at.
    - rewrite <- Hsplit. unfold INT_MAX. lia.
    - intros H. apply in_app_or in H. destruct H as [H | H];
        [simpl in H; intuition discriminate|].
      apply in_app_or in H. destruct H as [H | H];
        [revert H; now apply numeral_absent | simpl in H; intuition discriminate]. }
  split.
  { apply trim_fixed; [reflexivity|]. unfold command.
    replace (lit "Y:" ++ Y ++ lit " X:" ++ X)
      with ((lit "Y:" ++ Y ++ lit " X:") ++ X)
      by (rewrite <- !app_assoc; reflexivity).
    now apply skip_space_rev_numeral. }
  split.
  { unfold accepted. rewrite Hxi, Hyi. unfold len.
    apply andb_true_iff. split; apply Z.geb_le; lia. }
  split.
  - rewrite xStr_until_space;
      [| exact Hfit | exists (lit "Y:" ++ Y ++ lit " "), X; exact Hsplit].
    rewrite Hxi.
    replace (Z.to_nat (3 + len Y + 2))
      with (List.length (lit "Y:" ++ Y ++ lit " X:"))
      by (unfold len; rewrite !length_app; simpl List.length; lia).
    replace command with ((lit "Y:" ++ Y ++ lit " X:") ++ X)
      by (unfold command; rewrite <- !app_assoc; reflexivity).
    rewrite skipn_past. apply until_space_whole. now apply numeral_absent.
  - rewrite yStr_to_end;
      [| exact Hfit | exists [], (Y ++ lit " X:" ++ X); reflexivity].
    rewrite Hyi. reflexivity.
Qed.

(** A command written with two numbers of the range of a [long]: each
    number is read back whole and then stored in an [int]. *)
Lemma printed_command_read
      (a b : Z) (before tail : WString.t) (st : state) :
  -2147483648 <= a < 2147483648 -> -2147483648 <= b < 2147483648 ->
  forallb isspace before = true -> no_digit_ahead tail = true ->
  fits (before ++ printed_command a b ++ tail) ->
  processCommand (before ++ printed_command a b ++ tail) st
  = dispatched (Core.constrain (to_int a) 0 180)
               (Core.constrain (to_int b) 0 180) st.
Proof.
  intros Ha Hb Hbefore Hahead Hfit.
  destruct (print_long_text a Ha) as [_ [HXc [_ HXr]]].
  destruct (print_long_text b Hb) as [HYn [HYc [_ HYr]]].
  set (kept := rev (skip_space (rev tail))).
  destruct (skip_space_split (rev tail)) as [ws [Hws Hblank]].
  assert (Htail : tail = kept ++ rev ws).
  { unfold kept. rewrite <- rev_app_distr, <- Hws. symmetry. apply rev_involutive. }
  assert (Hkept : skip_space (rev kept) = rev kept)
    by (unfold kept; rewrite rev_involutive; apply skip_space_twice).
  assert (Hkahead : no_digit_ahead kept = true).
  { destruct kept as [|c kept']; [reflexivity|].
    rewrite Htail in Hahead. exact Hahead. }
  assert (Hline : before ++ printed_command a b ++ tail
                  = before ++ (printed_command a b ++ kept) ++ rev ws)
    by (rewrite Htail, <- !app_assoc; reflexivity).
  rewrite Hline in Hfit |- *. apply fits_infix in Hfit.
  assert (Hshape : printed_command a b ++ kept
                   = lit "X:" ++ Core.print_long a ++ lit " Y:"
                       ++ Core.print_long b ++ kept)
    by (unfold printed_command; rewrite <- !app_assoc; reflexivity).
  rewrite Hshape in Hfit |- *.
  destruct (number_fields _ _ kept HXc HYc HYn Hkept Hfit)
    as [Htrim [Hacc [HxStr HyStr]]].
  set (command := lit "X:" ++ Core.print_long a ++ lit " Y:"
                    ++ Core.print_long b ++ kept) in *.
  assert (Hcmd : trim (before ++ command ++ rev ws) = command).
  { rewrite trim_padded; [exact Htrim | exact Hbefore |].
    now apply forallb_rev. }
  rewrite processCommand_dispatch by (rewrite Hcmd; exact Hacc).
  cbv zeta. rewrite Hcmd. unfold newX_of, newY_of, toInt.
  rewrite HxStr, HyStr.
  assert (Hxa : atol (Core.print_long a) = a)
    by (rewrite <- (app_nil_r (Core.print_long a)); now apply HXr).
  assert (Hyb : atol (Core.print_long b ++ kept) = b) by now apply HYr.
  rewrite Hxa, Hyb. reflexivity.
Qed.

(** X10: for all integers a and b an [int] can hold, the command
    [X:<a> Y:<b>] is accepted, with any white space before it and any text
    behind it that does not begin with a digit: the positions become a and
    b constrained to 0..180, the two pulses of these values are written and
    the confirmation line carries them.  A second command that reached the
    buffer behind the terminator of the first is part of that text, and is
    lost. *)
Theorem printed_command_dispatched
        (a b : Z) (before tail : WString.t) (st : state) :
  -32768 <= a <= INT_MAX -> -32768 <= b <= INT_MAX ->
  forallb isspace before = true -> no_digit_ahead tail = true ->
  fits (before ++ printed_command a b ++ tail) ->
  processCommand (before ++ printed_command a b ++ tail) st
  = dispatched (Core.constrain a 0 180) (Core.constrain b 0 180) st.
Proof.
  intros Ha Hb Hbefore Hahead Hfit.
  rewrite printed_command_read by (unfold INT_MAX in *; auto; lia).
  now rewrite !to_int_small.
Qed.

Lemma printed_command_dispatched_witness :
  processCommand
    (terminated (printed_command (-32768) 32767)
       ++ terminated (printed_command 10 20)) power_on
  = dispatched 0 180 power_on.
Proof.
  assert (Hline : terminated (printed_command (-32768) 32767)
                    ++ terminated (printed_command 10 20)
                  = [] ++ printed_command (-32768) 32767
                       ++ Core.LF :: terminated (printed_command 10 20))
    by reflexivity.
  rewrite Hline.
  apply (printed_command_dispatched (-32768) 32767); unfold INT_MAX; try lia;
    try reflexivity.
  split; [discriminate | apply not_in_text; reflexivity].
Defined.

(** X11: the same holds with the fields in the other order: for all
    integers a and b an [int] can hold, the line [Y:<b> X:<a>] sets the X
    position to a and the Y position to b, both constrained to 0..180. *)
Theorem swapped_command_dispatched
        (a b : Z) (before after : WString.t) (st : state) :
  -32768 <= a <= INT_MAX -> -32768 <= b <= INT_MAX ->
  forallb isspace before = true -> forallb isspace after = true ->
  processCommand (before ++ swapped_command a b ++ after) st
  = dispatched (Core.constrain a 0 180) (Core.constrain b 0 180) st.
Proof.
  unfold INT_MAX. intros Ha Hb Hbefore Hafter.
  destruct (print_long_text a) as [HXn [HXc [HXl HXr]]]; [lia|].
  destruct (print_long_text b) as [_ [HYc [HYl HYr]]]; [lia|].
  destruct (swapped_fields _ _ HXc HYc HXn HXl HYl)
    as [Htrim [Hacc [HxStr HyStr]]].
  fold (swapped_command a b) in Htrim, Hacc, HxStr, HyStr.
  assert (Hcmd : trim (before ++ swapped_command a b ++ after)
                 = swapped_command a b)
    by (rewrite trim_padded by assumption; exact Htrim).
  rewrite processCommand_dispatch by (rewrite Hcmd; exact Hacc).
  cbv zeta. rewrite Hcmd. unfold newX_of, newY_of, toInt.
  rewrite HxStr, HyStr.
  assert (Hxa : atol (Core.print_long a) = a)
    by (rewrite <- (app_nil_r (Core.print_long a)); now apply HXr).
  assert (Hyb : atol (Core.print_long b ++ lit " X:" ++ Core.print_long a) = b)
    by now apply HYr.
  rewrite Hyb, Hxa.
  rewrite !to_int_small by (unfold INT_MAX; lia).
  reflexivity.
Qed.

Lemma swapped_command_dispatched_witness :
  processCommand (terminated (swapped_command 200 (-7))) power_on
  = dispatched 180 0 power_on.
Proof.
  apply (swapped_command_dispatched 200 (-7) [] [Core.LF] power_on);
    unfold INT_MAX; try lia; reflexivity.
Defined.

(** ** Blank lines *)

(** X12: a line that is empty or holds only white space (a bare
    terminator, for instance) is answered with the error line and changes
    neither the positions nor the outputs. *)
Theorem blank_line_rejected (received : WString.t) (st : state) :
  forallb isspace received = true ->
  processCommand received st = rejected st.
Proof.
  intros Hblank.
  assert (Htrim : trim received = []).
  { pose proof (trim_padded received [] [] Hblank eq_refl) as H.
    cbn [app] in H. rewrite app_nil_r in H. exact H. }
  apply processCommand_reject. now rewrite Htrim.
Qed.

Lemma blank_line_rejected_witness :
  processCommand [Core.CR; Core.LF] power_on = rejected power_on.
Proof. apply (blank_line_rejected [Core.CR; Core.LF] power_on). reflexivity. Defined.

(** ** What is sent on the serial port *)

Lemma processCommand_response (command : WString.t) (st : state) :
  exists answer,
    response answer
    /\ serial_out (processCommand command st) = serial_out st ++ line answer.
Proof.
  destruct (accepted (trim command)) eqn:Hacc.
  - rewrite (processCommand_dispatch command st Hacc). cbv zeta.
    eexists. split; [|reflexivity].
    right. eexists. eexists.
    split; [apply constrain_range|]. split; [apply constrain_range|].
    reflexivity.
  - rewrite (processCommand_reject command st Hacc).
    exists error_line. split; [now left | reflexivity].
Qed.

Lemma protocol_step (st : state) (e : event) :
  protocol_output (serial_out st) -> protocol_output (serial_out (step st e)).
Proof.
  destruct e as [avail|]; simpl.
  - destruct (serialEvent_rest avail st) as [_ [_ [-> _]]]. auto.
  - rewrite loop_unfold. destruct (stringComplete st); [|auto].
    destruct (reset_outputs (processCommand (inputString st) st))
      as [_ [_ [_ ->]]].
    destruct (processCommand_response (inputString st) st)
      as [answer [Hresp ->]].
    intros [answers [Hall ->]]. exists (answers ++ [answer]).
    split; [apply Forall_app; split; [exact Hall | now constructor]|].
    rewrite map_app, concat_app. cbn [List.map List.concat].
    now rewrite app_nil_r, app_assoc.
Qed.

Lemma setup_banner (st : state) :
  serial_out (setup st) = serial_out st ++ banner.
Proof.
  destruct st as [px py buf flag out writes].
  cbv beta iota zeta delta
    [setup Serial_println Serial_print setServoAngle pwm_writeMicroseconds
     banner line posX posY inputString stringComplete serial_out pwm_writes].
  now rewrite <- !app_assoc.
Qed.

(** X13: whatever bytes are received, all the sketch ever sends is the
    two banner lines of [setup] followed by response lines, each of which
    is either the error line or [OK X:<x> Y:<y>] with x and y in 0..180. *)
Theorem only_responses_sent (events : list event) :
  protocol_output (serial_out (execute events (setup power_on))).
Proof.
  unfold execute.
  assert (H0 : protocol_output (serial_out (setup power_on))).
  { exists []. split; [constructor|]. rewrite setup_banner.
    cbn [List.map List.concat]. rewrite app_nil_r. reflexivity. }
  revert H0. generalize (setup power_on).
  induction events as [|e events IH]; intros s Hs; simpl; [exact Hs|].
  apply IH, protocol_step, Hs.
Qed.

(** ** Numbers an [int] cannot hold *)

Lemma to_int_period (z k : Z) : to_int (z + 65536 * k) = to_int z.
Proof.
  unfold to_int, wrap. change (2 ^ 16) with 65536.
  replace (z + 65536 * k + 2 ^ (16 - 1)) with (z + 2 ^ (16 - 1) + k * 65536)
    by lia.
  now rewrite Z_mod_plus_full.
Qed.

(** X14: a number too large for an [int] is not saturated but wraps: for
    a and b in the range of an [int] and any multiples of 65536 added to
    them (within the range of a [long]), the command is dispatched as the
    command [X:<a> Y:<b>] is. *)
Theorem wide_numbers_wrap
        (a b j k : Z) (before tail : WString.t) (st : state) :
  -32768 <= a <= INT_MAX -> -32768 <= b <= INT_MAX ->
  -2147483648 <= a + 65536 * j < 2147483648 ->
  -2147483648 <= b + 65536 * k < 2147483648 ->
  forallb isspace before = true -> no_digit_ahead tail = true ->
  fits (before ++ printed_command (a + 65536 * j) (b + 65536 * k) ++ tail) ->
  processCommand
    (before ++ printed_command (a + 65536 * j) (b + 65536 * k) ++ tail) st
  = dispatched (Core.constrain a 0 180) (Core.constrain b 0 180) st.
Proof.
  intros Ha Hb Haj Hbk Hbefore Hahead Hfit.
  rewrite printed_command_read by assumption.
  rewrite !to_int_period. now rewrite !to_int_small.
Qed.

Lemma wide_numbers_wrap_witness :
  processCommand (terminated (printed_command 65626 (-65491))) power_on
  = dispatched 90 45 power_on.
Proof.
  apply (wide_numbers_wrap 90 45 1 (-1) [] [Core.LF] power_on);
    unfold INT_MAX; try lia; try reflexivity.
  split; [discriminate | apply not_in_text; reflexivity].
Defined.
